(** * Verification of the visualization core of the tweezer-array explainer

    The development follows [src/components/PulseControl.tsx]:

    - [Sphere]: the projector, the axis-angle rotator and the two pulse
      trajectories drawn by the [PulseControl] component;
    - [Charts]: the synthetic curve generators [generateDecayData] and
      [generateRBData];
    - [Transport]: the per-frame computation of [animate] in
      [TransportSimulation] and its waveform polylines.

    and, from the same files, [Imaging] ([ImagingAnalysis]) and [ArraySim]
    ([ArraySimulation]); [Chat] follows [services/geminiService.ts] and
    [components/GeminiChat.tsx].

    Part I holds the program, Part II its properties.

    JavaScript numbers are idealised: the trigonometric and exponential code
    is modelled over the real numbers [R], the piecewise-linear transport
    schedule over the rationals [Q], where it computes. *)

From Stdlib Require Import Reals Lra Lia List ZArith QArith Qround Qabs.
From Stdlib Require Import RNsatz Psatz String Ascii Bool.
Import ListNotations.

(** * Part I: the program *)

Module Sphere.

Local Open Scope R_scope.

(** *** Data *)

Record Vec3 : Type := mkVec3 { x : R; y : R; z : R }.

Record ScreenPoint : Type := mkPoint { cx : R; cy : R }.

Definition width : R := 500.
Definition height : R := 400.
Definition radius : R := 120.
Definition centerX : R := width / 2.
Definition centerY : R := height / 2.

(** *** Projector: [project] *)

Definition project (px py pz : R) : ScreenPoint :=
  let tilt := 0.4 in
  let rot := 0.5 in
  let x1 := px * cos rot - pz * sin rot in
  let z1 := px * sin rot + pz * cos rot in
  let y2 := py * cos tilt - z1 * sin tilt in
  {| cx := centerX + x1; cy := centerY + y2 |}.

(** *** Rotator: [rotate], Rodrigues' formula for an axis in the x-z plane *)

Definition startVec : Vec3 := {| x := 0; y := - radius; z := 0 |}.

Definition rotate (v : Vec3) (axisAngle theta : R) : Vec3 :=
  let ax := cos axisAngle in
  let az := sin axisAngle in
  let c := cos theta in
  let s := sin theta in
  let dot := x v * ax + z v * az in
  let crossX := - az * y v in
  let crossY := az * x v - ax * z v in
  let crossZ := ax * y v in
  {| x := x v * c + crossX * s + ax * dot * (1 - c);
     y := y v * c + crossY * s + 0;
     z := z v * c + crossZ * s + az * dot * (1 - c) |}.

(** *** The single pulse

    The loop runs [i = 0 .. simpleSteps]; each iteration first pushes the
    projection of [currentSimple] and only then replaces [currentSimple] by
    the start vector rotated through the fraction [i / simpleSteps] of the
    total angle. *)

Definition simpleSteps : nat := 20.

Definition simpleTotalAngle (errorRate : R) : R := PI * (1 + errorRate).

Definition simpleStep (errorRate : R) (i : nat) : Vec3 :=
  rotate startVec 0 (simpleTotalAngle errorRate * (INR i / INR simpleSteps)).

Fixpoint simpleLoop (errorRate : R) (iters : list nat)
    (currentSimple : Vec3) (simplePoints : list ScreenPoint)
    : Vec3 * list ScreenPoint :=
  match iters with
  | [] => (currentSimple, simplePoints)
  | i :: rest =>
      let p := project (x currentSimple) (y currentSimple) (z currentSimple) in
      simpleLoop errorRate rest (simpleStep errorRate i) (simplePoints ++ [p])
  end.

Definition simplePoints (errorRate : R) : list ScreenPoint :=
  snd (simpleLoop errorRate (seq 0 (S simpleSteps)) startVec []).

(** [endSimple = simplePoints[simplePoints.length - 1]] *)
Definition endSimple (errorRate : R) : ScreenPoint :=
  last (simplePoints errorRate) (mkPoint 0 0).

(** The sphere vector whose projection is the last point of the single-pulse
    polyline: the value of [currentSimple] at the last push. *)
Definition simpleEndVec (errorRate : R) : Vec3 :=
  simpleStep errorRate (simpleSteps - 1).

(** *** The composite pulse *)

Definition scale (errorRate : R) : R := 1 + errorRate.
Definition toRad : R := PI / 180.

Definition theta1 (errorRate : R) : R := 180 * toRad * scale errorRate.
Definition phi1 : R := 60 * toRad.
Definition theta2 (errorRate : R) : R := 360 * toRad * scale errorRate.
Definition phi2 : R := 300 * toRad.
Definition theta3 (errorRate : R) : R := 180 * toRad * scale errorRate.
Definition phi3 : R := 60 * toRad.

Fixpoint addPathLoop (steps : nat) (angle axisPhase : R) (start : Vec3)
    (iters : list nat) (curr : Vec3) (scrofulousPoints : list ScreenPoint)
    : Vec3 * list ScreenPoint :=
  match iters with
  | [] => (curr, scrofulousPoints)
  | i :: rest =>
      let curr' := rotate start axisPhase (angle * (INR i / INR steps)) in
      let p := project (x curr') (y curr') (z curr') in
      addPathLoop steps angle axisPhase start rest curr'
        (scrofulousPoints ++ [p])
  end.

(** [addPath] returns the last vector and appends to the shared polyline. *)
Definition addPath (steps : nat) (angle axisPhase : R) (start : Vec3)
    (scrofulousPoints : list ScreenPoint) : Vec3 * list ScreenPoint :=
  addPathLoop steps angle axisPhase start (seq 1 steps) start scrofulousPoints.

Definition scrofulous (errorRate : R) : Vec3 * list ScreenPoint :=
  let currentScrof := startVec in
  let pts := [project (x currentScrof) (y currentScrof) (z currentScrof)] in
  let '(currentScrof, pts) :=
    addPath 15 (theta1 errorRate) phi1 currentScrof pts in
  let '(currentScrof, pts) :=
    addPath 25 (theta2 errorRate) phi2 currentScrof pts in
  addPath 15 (theta3 errorRate) phi3 currentScrof pts.

Definition scrofulousEndVec (errorRate : R) : Vec3 := fst (scrofulous errorRate).
Definition scrofulousPoints (errorRate : R) : list ScreenPoint :=
  snd (scrofulous errorRate).

(** [endScrof = scrofulousPoints[scrofulousPoints.length - 1]] *)
Definition endScrof (errorRate : R) : ScreenPoint :=
  last (scrofulousPoints errorRate) (mkPoint 0 0).

(** The projection of a sphere vector, as every caller applies [project]. *)
Definition projectVec (v : Vec3) : ScreenPoint := project (x v) (y v) (z v).

(** *** Geometry on the sphere *)

Definition normSq (v : Vec3) : R := x v * x v + y v * y v + z v * z v.
Definition norm (v : Vec3) : R := sqrt (normSq v).

Definition distSq (a b : Vec3) : R :=
  (x a - x b) * (x a - x b) + (y a - y b) * (y a - y b)
  + (z a - z b) * (z a - z b).
Definition dist (a b : Vec3) : R := sqrt (distSq a b).

(** The pole the pulse aims at, opposite to [startVec]. *)
Definition targetPole : Vec3 := {| x := 0; y := radius; z := 0 |}.

End Sphere.

Module Charts.

Local Open Scope R_scope.

(** *** Number formatting

    [parseFloat(v.toFixed(digits))]: the decimal with [digits] fractional
    digits nearest to [v], ties going away from zero ([toFixed] rounds the
    magnitude half up and keeps the sign). *)

Definition roundHalfUp (v : R) : Z := Int_part (v + / 2).

Definition toFixed (digits : nat) (v : R) : R :=
  let s := 10 ^ digits in
  if Rlt_dec v 0
  then - (IZR (roundHalfUp (- v * s)) / s)
  else IZR (roundHalfUp (v * s)) / s.

(** [Math.pow] where its value is a real number the generators can reach:
    exponent 0 gives 1, a positive base gives [exp (y * ln x)], base 0 with a
    positive exponent gives 0.  (JavaScript yields [Infinity] for base 0 with
    a negative exponent and [NaN] or a signed power for a negative base; these
    arguments have no counterpart in [R] and the theorems exclude them.) *)
Definition Math_pow (base exponent : R) : R :=
  if Req_dec_T exponent 0 then 1
  else if Rlt_dec 0 base then Rpower base exponent
  else 0.

(** *** [generateDecayData]

    [Math.random] is a stream of draws [rng]; the number of draws made so far
    is threaded through the loops. *)

Record DecaySample : Type := mkDecaySample
  { time : R; fit : R; measured : option R }.

(** Default element for indexing into the data. *)
Definition noSample : DecaySample := mkDecaySample 0 0 None.

(** The record pushed by iteration [i], whose noise is the draw [rnd]. *)
Definition decaySample (tau maxTime : R) (points : nat) (noise exponent : R)
    (i : nat) (rnd : R) : DecaySample :=
  let t := (maxTime / INR points) * INR i in
  let fit := exp (- Math_pow (t / tau) exponent) in
  let measure := fit + (rnd - 0.5) * noise in
  {| time := toFixed 1 t;
     fit := toFixed 3 fit;
     measured := if (i mod 5 =? 0)%nat
                 then Some (toFixed 3 measure) else None |}.

Fixpoint decayLoop (rng : nat -> R) (tau maxTime : R) (points : nat)
    (noise exponent : R) (iters : list nat) (draws : nat)
    (data : list DecaySample) : list DecaySample * nat :=
  match iters with
  | [] => (data, draws)
  | i :: rest =>
      decayLoop rng tau maxTime points noise exponent rest (S draws)
        (data ++ [decaySample tau maxTime points noise exponent i (rng draws)])
  end.

Definition generateDecayData (rng : nat -> R) (draws : nat)
    (tau maxTime : R) (points : nat) (noise exponent : R)
    : list DecaySample * nat :=
  decayLoop rng tau maxTime points noise exponent (seq 0 (S points)) draws [].

(** *** [generateRBData] *)

Inductive Mode : Type := standard | irb.

Inductive Category : Type := Standard | IRB.

(** A record of [data]: the [type] field ('scatter' or 'line') is the
    constructor. *)
Inductive RBSample : Type :=
  | Scatter (length : nat) (y : R) (category : Category)
  | Line (length : nat) (standard_fit : R) (irb_fit : option R).

Definition sampleLength (s : RBSample) : nat :=
  match s with
  | Scatter m _ _ => m
  | Line m _ _ => m
  end.

Definition lengths : list nat := [2; 10; 20; 40; 80; 150; 300; 500]%nat.
Definition sequencesPerLength : nat := 30.

Definition p_standard : R := 0.9985.
Definition p_irb : R := 0.9985 * 0.9995.

Definition avgProbStd (m : nat) : R := 0.5 + 0.5 * Math_pow p_standard (INR m).
Definition avgProbIrb (m : nat) : R := 0.5 + 0.5 * Math_pow p_irb (INR m).
Definition variance (m : nat) : R := 0.05 * (1 - exp (- INR m / 100)).

(** The inner [for] loop pushing the scatter records of one length. *)
Fixpoint scatterLoop (rng : nat -> R) (m : nat) (avg : R) (cat : Category)
    (count : nat) (draws : nat) (data : list RBSample)
    : list RBSample * nat :=
  match count with
  | O => (data, draws)
  | S count' =>
      let val := Rmin 1 (Rmax 0 (avg + (rng draws - 0.5) * variance m * 2)) in
      scatterLoop rng m avg cat count' (S draws)
        (data ++ [Scatter m (toFixed 4 val) cat])
  end.

(** The fitted-curve record pushed after the scatter records of a length. *)
Definition lineRecord (mode : Mode) (m : nat) : RBSample :=
  Line m (toFixed 4 (avgProbStd m))
         (match mode with
          | irb => Some (toFixed 4 (avgProbIrb m))
          | standard => None
          end).

(** The body of [lengths.forEach]. *)
Definition rbStep (mode : Mode) (rng : nat -> R) (m : nat)
    (draws : nat) (data : list RBSample) : list RBSample * nat :=
  let '(data, draws) :=
    match mode with
    | standard =>
        scatterLoop rng m (avgProbStd m) Standard sequencesPerLength draws data
    | irb =>
        scatterLoop rng m (avgProbIrb m) IRB sequencesPerLength draws data
    end in
  (data ++ [lineRecord mode m], draws).

Fixpoint rbLoop (mode : Mode) (rng : nat -> R) (ls : list nat)
    (draws : nat) (data : list RBSample) : list RBSample * nat :=
  match ls with
  | [] => (data, draws)
  | m :: rest =>
      let '(data, draws) := rbStep mode rng m draws data in
      rbLoop mode rng rest draws data
  end.

(** [data.sort((a, b) => a.length - b.length)]: a stable sort on [length]. *)
Fixpoint insertByLength (s : RBSample) (l : list RBSample) : list RBSample :=
  match l with
  | [] => [s]
  | s' :: rest =>
      if (sampleLength s <=? sampleLength s')%nat
      then s :: s' :: rest
      else s' :: insertByLength s rest
  end.

Fixpoint sortByLength (l : list RBSample) : list RBSample :=
  match l with
  | [] => []
  | s :: rest => insertByLength s (sortByLength rest)
  end.

Definition generateRBData (mode : Mode) (rng : nat -> R) (draws : nat)
    : list RBSample * nat :=
  let '(data, draws) := rbLoop mode rng lengths draws [] in
  (sortByLength data, draws).

(** The fitted-curve records of a data set. *)
Definition isLine (s : RBSample) : bool :=
  match s with Line _ _ _ => true | Scatter _ _ _ => false end.

Definition linesAt (m : nat) (data : list RBSample) : list RBSample :=
  filter (fun s => isLine s && (sampleLength s =? m)%nat) data.

End Charts.

Module Transport.

Local Open Scope Q_scope.
Local Open Scope string_scope.

(** *** Scene constants of the main animation *)

Definition startX : Q := 100.
Definition endX : Q := 700.
Definition yPos : Q := 120.
Definition totalDuration : Q := 8000.

(** [d3.easeCubicInOut], as d3-ease defines it:
    [((t *= 2) <= 1 ? t * t * t : (t -= 2) * t * t + 2) / 2]. *)
Definition easeCubicInOut (t : Q) : Q :=
  let t2 := t * 2 in
  (if Qle_bool t2 1
   then t2 * t2 * t2
   else let t3 := t2 - 2 in t3 * t3 * t3 + 2) / 2.

(** The JavaScript remainder [a % b]: the sign follows the dividend. *)
Definition truncate (q : Q) : Z := Z.quot (Qnum q) (Zpos (Qden q)).
Definition jsRem (a b : Q) : Q := a - b * inject_Z (truncate (a / b)).

(** *** The per-frame state *)

Record Frame : Type := mkFrame
  { slmPower : Q; aodPower : Q; x : Q; stage : string }.

(** The [if / else if] chain of [animate], a function of the cycle time [t]
    alone. *)
Definition frame (t : Q) : Frame :=
  if Qlt_le_dec t 0.15 then
    let subT := t / 0.15 in
    {| slmPower := 1 - subT; aodPower := subT; x := startX;
       stage := "Handover (SLM → AOD)" |}
  else if Qlt_le_dec t 0.75 then
    let subT := (t - 0.15) / 0.6 in
    let ease := easeCubicInOut subT in
    {| slmPower := 0; aodPower := 1; x := startX + (endX - startX) * ease;
       stage := "Diagonal Transport" |}
  else if Qlt_le_dec t 0.9 then
    let subT := (t - 0.75) / 0.15 in
    {| slmPower := subT; aodPower := 1 - subT; x := endX;
       stage := "Handover (AOD → SLM)" |}
  else
    {| slmPower := 1; aodPower := 0; x := startX;
       stage := "Resetting..." |}.

(** *** The waveform polylines *)

Definition graphPoints : nat := 100.

(** [(gpS, gpA)] at graph time [gt]. *)
Definition graphSample (gt : Q) : Q * Q :=
  if Qlt_le_dec gt 0.15 then (1 - gt / 0.15, gt / 0.15)
  else if Qlt_le_dec gt 0.75 then (0, 1)
  else if Qlt_le_dec gt 0.9 then ((gt - 0.75) / 0.15, 1 - (gt - 0.75) / 0.15)
  else (0, 0).

Definition graphTime (i : nat) : Q :=
  inject_Z (Z.of_nat i) / inject_Z (Z.of_nat graphPoints).

(** The points pushed for sample [i]. *)
Definition slmPoint (i : nat) : Q * Q :=
  let gt := graphTime i in (gt * 700, 100 - fst (graphSample gt) * 90).
Definition aodPoint (i : nat) : Q * Q :=
  let gt := graphTime i in (gt * 700, 100 - snd (graphSample gt) * 90).

Fixpoint graphLoop (iters : list nat) (dataSLM dataAOD : list (Q * Q))
    : list (Q * Q) * list (Q * Q) :=
  match iters with
  | [] => (dataSLM, dataAOD)
  | i :: rest =>
      let gt := graphTime i in
      let '(gpS, gpA) := graphSample gt in
      graphLoop rest (dataSLM ++ [(gt * 700, 100 - gpS * 90)])
                     (dataAOD ++ [(gt * 700, 100 - gpA * 90)])
  end.

Definition waveforms : list (Q * Q) * list (Q * Q) :=
  graphLoop (seq 0 graphPoints) [] [].

Definition dataSLM : list (Q * Q) := fst waveforms.
Definition dataAOD : list (Q * Q) := snd waveforms.

(** *** One call of [animate]

    [startTime] is the closure variable the first call initialises; the
    result carries its new value together with everything the frame draws. *)

Record Drawn : Type := mkDrawn
  { cycleTime : Q;
    state : Frame;
    slmX : Q;
    atom : Q * Q;
    pathSLM : list (Q * Q);
    pathAOD : list (Q * Q);
    currentTimeX : Q }.

Definition animate (startTime timestamp : Q) : Q * Drawn :=
  let startTime := if Qeq_bool startTime 0 then timestamp else startTime in
  let elapsed := jsRem (timestamp - startTime) totalDuration in
  let t := elapsed / totalDuration in
  let f := frame t in
  (startTime,
   {| cycleTime := t;
      state := f;
      slmX := if Qlt_le_dec 0.5 t then endX else startX;
      atom := (x f, yPos);
      pathSLM := dataSLM;
      pathAOD := dataAOD;
      currentTimeX := (elapsed / totalDuration) * 700 |}).

(** *** The inset of the two movement strategies

    Both polylines are drawn once, unconditionally, as SVG paths
    [M 20 130 L 130 130 L 130 20] and [M 20 130 L 130 20]; a path is kept as
    the list of its vertices. *)

Definition pathStraight : list (Q * Q) := [(20, 130); (130, 130); (130, 20)].
Definition pathDiagonal : list (Q * Q) := [(20, 130); (130, 20)].

(** *** Phases, for stating the schedule *)

Inductive Phase : Type := HandoverStart | Transit | HandoverEnd | Resetting.

Definition phaseLabel (p : Phase) : string :=
  match p with
  | HandoverStart => "Handover (SLM → AOD)"
  | Transit => "Diagonal Transport"
  | HandoverEnd => "Handover (AOD → SLM)"
  | Resetting => "Resetting..."
  end.

Definition nextPhase (p : Phase) : Phase :=
  match p with
  | HandoverStart => Transit
  | Transit => HandoverEnd
  | HandoverEnd => Resetting
  | Resetting => HandoverStart
  end.

(** The labels met when [t] runs through [ts], consecutive repetitions
    merged. *)
Fixpoint stageChanges (prev : string) (ts : list Q) : list string :=
  match ts with
  | [] => []
  | t :: rest =>
      let s := stage (frame t) in
      if String.eqb s prev then stageChanges prev rest
      else s :: stageChanges s rest
  end.

(** A sweep of one cycle in [n] equal increments. *)
Definition sweep (n : nat) : list Q :=
  map (fun i => inject_Z (Z.of_nat i) / inject_Z (Z.of_nat n)) (seq 0 n).

End Transport.

Module SphereAux.

Import Sphere.
Local Open Scope R_scope.

(** Squared distance of a screen point from the centre of the outline. *)
Definition screenDistSq (p : ScreenPoint) : R :=
  (cx p - centerX) * (cx p - centerX) + (cy p - centerY) * (cy p - centerY).

(** Inside the outline circle of the sphere. *)
Definition onDisc (p : ScreenPoint) : Prop :=
  screenDistSq p <= radius * radius.

(** Inside the 500 by 400 drawing. *)
Definition inView (p : ScreenPoint) : Prop :=
  0 <= cx p <= width /\ 0 <= cy p <= height.

End SphereAux.

Module ChartsAux.

Import Charts.
Local Open Scope R_scope.

(** The decay curve before rounding. *)
Definition curve (tau alpha t : R) : R := exp (- Math_pow (t / tau) alpha).



End ChartsAux.

Module Imaging.

Local Open Scope R_scope.

(** [Math.pow(base, n)] for a non-negative integer literal [n]: the [n]-fold
    product, whatever the sign of the base. *)
Definition Math_pow_int (base : R) (n : nat) : R := base ^ n.

Definition size : nat := 7.

(** [Math.floor(size / 2)] *)
Definition center : nat := (size / 2)%nat.

Definition sigma : R := 1.2.

(** The value pushed for column [x] of row [y]. *)
Definition weight (x y : nat) : R :=
  let distSq := Math_pow_int (INR x - INR center) 2
                + Math_pow_int (INR y - INR center) 2 in
  exp (- distSq / (2 * sigma * sigma)).

(** The two nested [for] loops, rows outside, pushing in row-major order. *)
Definition weightMatrix : list R :=
  fold_left
    (fun matrix y =>
       fold_left (fun matrix x => matrix ++ [weight x y]) (seq 0 size) matrix)
    (seq 0 size) [].

(** *** [generateHistogramData] *)






(** *** The noisy raw grid, rebuilt by the interval callback *)

Definition signal (col row : nat) : R :=
  let dist := sqrt (Math_pow_int (INR col - INR center) 2
                    + Math_pow_int (INR row - INR center) 2) in
  if Rlt_dec dist 1.5 then Rmax 0 (1 - dist * 0.5) else 0.

(** One callback: [Math.random] is the stream [rng], [draws] counts the draws
    made so far. *)
Definition newGrid (rng : nat -> R) (draws : nat) : list R * nat :=
  fold_left
    (fun st row =>
       fold_left
         (fun '(grid, draws) col =>
            let noise := rng draws * 0.4 in
            (grid ++ [signal col row + noise], S draws))
         (seq 0 size) st)
    (seq 0 size) ([], draws).

(** [rawGrid.map((val, i) => val * weightMatrix[i])]; an index outside the
    weight matrix reads [undefined] and the product is [NaN], here [None]. *)
Definition weightedGrid (rawGrid : list R) : list (option R) :=
  map (fun '(i, val) =>
         match nth_error weightMatrix i with
         | Some w => Some (val * w)
         | None => None
         end)
      (combine (seq 0 (List.length rawGrid)) rawGrid).

(** The [opacity] style of a cell in [renderGrid]. *)
Definition opacity (isWeight : bool) (val : R) : R :=
  if isWeight then val * 0.9 + 0.1 else Rmin 1 val.


(** The value pushed for column [col] of row [row] by the callback that
    starts after [draws] draws. *)
Definition cell (rng : nat -> R) (draws col row : nat) : R :=
  signal col row + rng (draws + row * size + col)%nat * 0.4.

End Imaging.

Module ArraySim.

Local Open Scope Q_scope.

Definition width : Q := 600.
Definition height : Q := 400.
Definition cols : nat := 40.
Definition rows : nat := 25.
Definition spacing : Q := 12.
Definition offsetX : Q := (width - inject_Z (Z.of_nat cols) * spacing) / 2.
Definition offsetY : Q := (height - inject_Z (Z.of_nat rows) * spacing) / 2.

Record Site : Type := mkSite { x : Q; y : Q; loaded : bool }.

(** The record pushed for column [i], row [j]; [rnd] is the draw of
    [Math.random()] and [isLoaded = rnd > 0.48]. *)
Definition site (rnd : Q) (i j : nat) : Site :=
  let isLoaded := negb (Qle_bool rnd 0.48) in
  {| x := inject_Z (Z.of_nat i) * spacing + offsetX;
     y := inject_Z (Z.of_nat j) * spacing + offsetY;
     loaded := isLoaded |}.

(** The nested loops, columns outside; [draws] counts the random draws. *)
Definition sites (rng : nat -> Q) (draws : nat) : list Site * nat :=
  fold_left
    (fun st i =>
       fold_left
         (fun '(data, draws) j => (data ++ [site (rng draws) i j], S draws))
         (seq 0 rows) st)
    (seq 0 cols) ([], draws).

(** [data.filter(d => d.loaded)]: the atoms drawn. *)
Definition atoms (data : list Site) : list Site := filter loaded data.

(** [setActiveCount(data.filter(d => d.loaded).length)] *)
Definition activeCount (data : list Site) : nat := List.length (atoms data).

(** The figure shown: [activeCount * 6]. *)
Definition shownQubits (data : list Site) : nat := (activeCount data * 6)%nat.

(** The fade-in delay of the [i]-th atom, in milliseconds. *)
Definition delay (i : nat) : Q := inject_Z (Z.of_nat i) * 0.5.

(** Default element for indexing into the sites. *)
Definition noSite : Site := mkSite 0 0 false.

End ArraySim.

Module Chat.

Local Open Scope string_scope.
Local Open Scope list_scope.

(** *** [services/geminiService.ts] *)

Inductive Role : Type := user | model.

(** A chat message; the service reads [role] and [text] only. *)
Record ChatMessage : Type := mkChatMessage
  { role : Role; text : string; timestamp : nat }.

(** What iterating the remote stream yields: a chunk, whose [text] may be
    missing, or a failure (a rejected request or a broken stream). *)
Inductive StreamItem : Type :=
  | Chunk (chunkText : option string)
  | Throw.

Definition missingKey : string :=
  "Error: API Key is missing in the environment variables.".

Definition connectionError : string :=
  String "010"%char
    "[Connection Error: Unable to reach Gemini API. Please check your API key.]".

(** JavaScript truthiness of an optional string: present and not empty. *)
Definition truthy (s : option string) : bool :=
  match s with
  | Some (String _ _) => true
  | _ => false
  end.

(** [history[history.length - 1]]; [undefined] on an empty history. *)
Definition lastMessage (history : list ChatMessage) : option ChatMessage :=
  match history with
  | [] => None
  | m :: rest => Some (last rest m)
  end.

(** The [for await] loop inside [try]: the calls of [onChunk], in order.  A
    failure ends the loop and the [catch] block reports it. *)
Fixpoint deliver (items : list StreamItem) : list string :=
  match items with
  | [] => []
  | Chunk t :: rest =>
      if truthy t
      then match t with Some s => s :: deliver rest | None => deliver rest end
      else deliver rest
  | Throw :: _ => [connectionError]
  end.

(** The texts passed to [onChunk], in order.  [apiKey] is
    [process.env.API_KEY]; [sendMessageStream] stands for the remote chat,
    given the message text.  Reading [lastMessage.text] on an empty history
    throws inside [try]. *)
Definition streamGeminiResponse (apiKey : option string)
    (sendMessageStream : string -> list StreamItem)
    (history : list ChatMessage) : list string :=
  if negb (truthy apiKey) then [missingKey]
  else
    match lastMessage history with
    | None => [connectionError]
    | Some m => deliver (sendMessageStream (text m))
    end.

(** A stream item that is a chunk. *)
Definition isChunk (i : StreamItem) : bool :=
  match i with Chunk _ => true | Throw => false end.

(** The non-empty texts of a list of chunks, in order. *)
Definition chunkTexts (items : list StreamItem) : list string :=
  flat_map (fun i => match i with
                     | Chunk (Some (String c s)) => [String c s]
                     | _ => []
                     end) items.

(** *** [components/GeminiChat.tsx] *)

Record ChatState : Type := mkChatState
  { messages : list ChatMessage; input : string; isLoading : bool }.

(** [newHistory[newHistory.length - 1].text = fullResponse] on a copy of the
    list. *)
Fixpoint setLastText (msgs : list ChatMessage) (full : string)
    : list ChatMessage :=
  match msgs with
  | [] => []
  | [m] => [ {| role := role m; text := full; timestamp := timestamp m |} ]
  | m :: rest => m :: setLastText rest full
  end.

Definition isEmpty (s : string) : bool :=
  match s with EmptyString => true | String _ _ => false end.

(** [handleSend], from the click to the end of the stream.  [trim] is
    [String.prototype.trim]; [tUser] and [tModel] are the two readings of the
    clock. *)
Definition handleSend (trim : string -> string) (tUser tModel : nat)
    (apiKey : option string) (sendMessageStream : string -> list StreamItem)
    (st : ChatState) : ChatState :=
  if isEmpty (trim (input st)) || isLoading st then st
  else
    let userMsg := {| role := user; text := input st; timestamp := tUser |} in
    let shown :=
      (messages st ++ [userMsg])
        ++ [ {| role := model; text := ""; timestamp := tModel |} ] in
    let chunks :=
      streamGeminiResponse apiKey sendMessageStream (messages st ++ [userMsg]) in
    let '(shown, _) :=
      fold_left
        (fun '(shown, fullResponse) chunk =>
           let fullResponse := (fullResponse ++ chunk)%string in
           (setLastText shown fullResponse, fullResponse))
        chunks (shown, "") in
    {| messages := shown; input := ""; isLoading := false |}.

End Chat.

(** * Part II: properties *)

(** ** Generic list facts used by the loops *)

Lemma last_app_singleton {A : Type} (l : list A) (a d : A) :
  last (l ++ [a]) d = a.
Proof.
  induction l as [|b l IH]; [reflexivity|].
  simpl. destruct (l ++ [a]) eqn:E; [destruct l; discriminate|exact IH].
Qed.

Module SphereSpec.

Import Sphere.
Local Open Scope R_scope.

(** *** Norm preservation *)

Lemma rotate_normSq (v : Vec3) (axisAngle theta : R) :
  normSq (rotate v axisAngle theta) = normSq v.
Proof.
  destruct v as [a b c]. unfold normSq, rotate; simpl.
  pose proof (sin2_cos2 axisAngle) as Ha.
  pose proof (sin2_cos2 theta) as Ht.
  unfold Rsqr in Ha, Ht.
  set (ca := cos axisAngle) in *. set (sa := sin axisAngle) in *.
  set (ct := cos theta) in *. set (st := sin theta) in *.
  clearbody ca sa ct st.
  nsatz.
Qed.

Lemma normSq_startVec : normSq startVec = radius * radius.
Proof. unfold normSq, startVec; simpl. ring. Qed.

Lemma norm_of_normSq (v : Vec3) (r : R) :
  0 <= r -> normSq v = r * r -> norm v = r.
Proof.
  intros Hr H. unfold norm. rewrite H. apply sqrt_square. exact Hr.
Qed.

Lemma radius_pos : 0 < radius.
Proof. unfold radius. lra. Qed.

(** *** The loops, unrolled from the end *)

Lemma simpleLoop_snoc (e : R) (iters : list nat) (j : nat)
    (cur : Vec3) (pts : list ScreenPoint) :
  simpleLoop e (iters ++ [j]) cur pts =
  (simpleStep e j,
   snd (simpleLoop e iters cur pts)
     ++ [projectVec (fst (simpleLoop e iters cur pts))]).
Proof.
  revert cur pts.
  induction iters as [|i rest IH]; intros cur pts; simpl.
  - reflexivity.
  - apply IH.
Qed.

Lemma addPathLoop_snoc (steps : nat) (angle axisPhase : R) (start : Vec3)
    (iters : list nat) (j : nat) (cur : Vec3) (pts : list ScreenPoint) :
  addPathLoop steps angle axisPhase start (iters ++ [j]) cur pts =
  (rotate start axisPhase (angle * (INR j / INR steps)),
   snd (addPathLoop steps angle axisPhase start iters cur pts)
     ++ [projectVec (rotate start axisPhase (angle * (INR j / INR steps)))]).
Proof.
  revert cur pts.
  induction iters as [|i rest IH]; intros cur pts; simpl.
  - reflexivity.
  - apply IH.
Qed.

(** A leg with at least one step ends on the start vector rotated through the
    whole angle, and that vector's projection is the last point pushed. *)
Lemma addPath_end (n : nat) (angle axisPhase : R) (start : Vec3)
    (pts : list ScreenPoint) :
  let r := addPath (S n) angle axisPhase start pts in
  fst r = rotate start axisPhase angle /\
  last (snd r) (mkPoint 0 0) = projectVec (fst r).
Proof.
  unfold addPath. rewrite seq_S, addPathLoop_snoc. cbn [fst snd].
  replace (angle * (INR (1 + n) / INR (S n))) with angle.
  - split; [reflexivity|apply last_app_singleton].
  - change (1 + n)%nat with (S n). field. apply not_0_INR. discriminate.
Qed.

Lemma scrofulousEndVec_unfold (e : R) :
  scrofulousEndVec e =
  rotate (rotate (rotate startVec phi1 (theta1 e)) phi2 (theta2 e))
         phi3 (theta3 e).
Proof.
  unfold scrofulousEndVec, scrofulous.
  destruct (addPath_end 14 (theta1 e) phi1 startVec
              [project (x startVec) (y startVec) (z startVec)]) as [H1 _].
  destruct (addPath 15 (theta1 e) phi1 startVec _) as [c1 p1]. simpl in H1.
  destruct (addPath_end 24 (theta2 e) phi2 c1 p1) as [H2 _].
  destruct (addPath 25 (theta2 e) phi2 c1 p1) as [c2 p2]. simpl in H2.
  destruct (addPath_end 14 (theta3 e) phi3 c2 p2) as [H3 _].
  rewrite H3, H2, H1. reflexivity.
Qed.

Lemma endScrof_project (e : R) : endScrof e = projectVec (scrofulousEndVec e).
Proof.
  unfold endScrof, scrofulousPoints, scrofulousEndVec, scrofulous.
  destruct (addPath 15 (theta1 e) phi1 startVec _) as [c1 p1].
  destruct (addPath 25 (theta2 e) phi2 c1 p1) as [c2 p2].
  apply (addPath_end 14 (theta3 e) phi3 c2 p2).
Qed.

Lemma endSimple_project (e : R) : endSimple e = projectVec (simpleEndVec e).
Proof.
  unfold endSimple, simplePoints, simpleEndVec, simpleSteps.
  rewrite seq_S, simpleLoop_snoc. cbn [snd].
  rewrite last_app_singleton.
  rewrite seq_S, simpleLoop_snoc. reflexivity.
Qed.

(** *** Exact values of the composite axes *)

Lemma cos_phi1 : cos phi1 = 1 / 2.
Proof.
  unfold phi1, toRad. replace (60 * (PI / 180)) with (PI / 3) by field.
  apply cos_PI3.
Qed.

Lemma sin_phi1 : sin phi1 = sqrt 3 / 2.
Proof.
  unfold phi1, toRad. replace (60 * (PI / 180)) with (PI / 3) by field.
  apply sin_PI3.
Qed.

Lemma cos_phi2 : cos phi2 = 1 / 2.
Proof.
  unfold phi2, toRad.
  replace (300 * (PI / 180)) with (- (PI / 3) + 2 * INR 1 * PI)
    by (simpl; field).
  rewrite cos_period, cos_neg. apply cos_PI3.
Qed.

Lemma sin_phi2 : sin phi2 = - (sqrt 3 / 2).
Proof.
  unfold phi2, toRad.
  replace (300 * (PI / 180)) with (- (PI / 3) + 2 * INR 1 * PI)
    by (simpl; field).
  rewrite sin_period, sin_neg, sin_PI3. reflexivity.
Qed.

Lemma sqrt3_sq : sqrt 3 * sqrt 3 = 3.
Proof. apply sqrt_sqrt. lra. Qed.


Lemma sqrt3_half_sq : 4 * (sqrt 3 / 2 * (sqrt 3 / 2)) = 3.
Proof. pose proof sqrt3_sq. nra. Qed.

(** The height of the composite endpoint, in closed form. *)
Lemma scrofulousEndVec_y (e : R) :
  8 * y (scrofulousEndVec e) =
  - radius * (1 + 6 * cos (2 * (PI * (1 + e)))
              + cos (2 * (PI * (1 + e))) * cos (2 * (PI * (1 + e)))).
Proof.
  rewrite scrofulousEndVec_unfold.
  unfold theta1, theta2, theta3, phi3, scale, toRad.
  replace (180 * (PI / 180) * (1 + e)) with (PI * (1 + e)) by field.
  replace (360 * (PI / 180) * (1 + e)) with (2 * (PI * (1 + e))) by field.
  fold toRad. fold phi1.
  unfold rotate, startVec; cbn [x y z].
  rewrite cos_phi1, sin_phi1, cos_phi2, sin_phi2.
  rewrite cos_2a, sin_2a.
  pose proof (sin2_cos2 (PI * (1 + e))) as Ht. unfold Rsqr in Ht.
  pose proof sqrt3_half_sq as Hq.
  assert (Hh : 2 * (1 / 2) = 1) by lra.
  set (C := cos (PI * (1 + e))) in *. set (S := sin (PI * (1 + e))) in *.
  set (q := sqrt 3 / 2) in *. set (h := 1 / 2) in *. clearbody C S q h.
  unfold radius.
  nsatz.
Qed.

Lemma distSq_targetPole (v : Vec3) :
  distSq v targetPole = normSq v - 2 * radius * y v + radius * radius.
Proof. unfold distSq, normSq, targetPole; cbn [x y z]. ring. Qed.

Lemma distSq_nonneg (a b : Vec3) : 0 <= distSq a b.
Proof.
  unfold distSq.
  pose proof (Rle_0_sqr (x a - x b)). pose proof (Rle_0_sqr (y a - y b)).
  pose proof (Rle_0_sqr (z a - z b)). unfold Rsqr in *. lra.
Qed.

Lemma normSq_scrofulousEndVec (e : R) :
  normSq (scrofulousEndVec e) = radius * radius.
Proof.
  rewrite scrofulousEndVec_unfold, !rotate_normSq. apply normSq_startVec.
Qed.

(** The composite endpoint never rises above half the radius, so it stays at
    least one radius away from the target pole, whatever the error. *)
Lemma scrofulous_distSq_lower (e : R) :
  radius * radius <= distSq (scrofulousEndVec e) targetPole.
Proof.
  rewrite distSq_targetPole, normSq_scrofulousEndVec.
  pose proof (scrofulousEndVec_y e) as Hy.
  pose proof (COS_bound (2 * (PI * (1 + e)))) as [Hl Hu].
  set (X := cos (2 * (PI * (1 + e)))) in *. clearbody X.
  set (yy := y (scrofulousEndVec e)) in *. clearbody yy.
  unfold radius in *.
  assert (0 <= (X + 1) * (X + 5)) by nra.
  nra.
Qed.

Lemma scrofulous_dist_lower (e : R) :
  radius <= dist (scrofulousEndVec e) targetPole.
Proof.
  unfold dist.
  rewrite <- (sqrt_square radius) at 1 by (unfold radius; lra).
  apply sqrt_le_1_alt, scrofulous_distSq_lower.
Qed.

(** The single pulse rotates about the x axis. *)
Lemma distSq_rotate_x (theta : R) :
  distSq (rotate startVec 0 theta) targetPole =
  2 * radius * radius * (1 + cos theta).
Proof.
  unfold distSq, rotate, startVec, targetPole; cbn [x y z].
  rewrite cos_0, sin_0.
  pose proof (sin2_cos2 theta) as Ht. unfold Rsqr in Ht.
  set (c := cos theta) in *. set (s := sin theta) in *. clearbody c s.
  unfold radius. nsatz.
Qed.

Lemma simpleEndVec_unfold (e : R) :
  simpleEndVec e = rotate startVec 0 (PI * (1 + e) * (19 / 20)).
Proof.
  unfold simpleEndVec, simpleStep, simpleTotalAngle, simpleSteps.
  replace (INR (20 - 1)) with 19 by (simpl; lra).
  replace (INR 20) with 20 by (simpl; lra).
  reflexivity.
Qed.

Lemma simple_distSq (e : R) :
  distSq (simpleEndVec e) targetPole =
  2 * radius * radius * (1 + cos (PI * (1 + e) * (19 / 20))).
Proof. rewrite simpleEndVec_unfold. apply distSq_rotate_x. Qed.

Lemma cos_gt_half (d : R) : - (PI / 3) < d < PI / 3 -> 1 / 2 < cos d.
Proof.
  intros [Hl Hu]. pose proof PI_RGT_0 as Hpi.
  rewrite <- cos_PI3.
  destruct (Rle_lt_dec 0 d) as [Hd|Hd].
  - apply cos_decreasing_1; lra.
  - rewrite <- (cos_neg d). apply cos_decreasing_1; lra.
Qed.

Lemma simple_distSq_upper (e : R) :
  -0.2 <= e <= 0.2 ->
  distSq (simpleEndVec e) targetPole < radius * radius.
Proof.
  intros [Hl Hu]. rewrite simple_distSq.
  pose proof PI_RGT_0 as Hpi.
  replace (PI * (1 + e) * (19 / 20)) with (PI * (19 * e - 1) / 20 + PI)
    by field.
  rewrite neg_cos.
  assert (H : 1 / 2 < cos (PI * (19 * e - 1) / 20)).
  { apply cos_gt_half. split; nra. }
  unfold radius. nra.
Qed.

Lemma simple_dist_upper (e : R) :
  -0.2 <= e <= 0.2 -> dist (simpleEndVec e) targetPole < radius.
Proof.
  intros He. unfold dist.
  rewrite <- (sqrt_square radius) by (unfold radius; lra).
  apply sqrt_lt_1_alt. split; [apply distSq_nonneg|].
  apply simple_distSq_upper, He.
Qed.

Lemma dist_startVec_targetPole : dist startVec targetPole = 2 * radius.
Proof.
  unfold dist, distSq, startVec, targetPole; cbn [x y z].
  replace ((0 - 0) * (0 - 0) + (- radius - radius) * (- radius - radius)
           + (0 - 0) * (0 - 0)) with ((2 * radius) * (2 * radius)) by ring.
  apply sqrt_square. unfold radius. lra.
Qed.

Lemma scrofulousEndVec_zero : scrofulousEndVec 0 = startVec.
Proof.
  rewrite scrofulousEndVec_unfold.
  unfold theta1, theta2, theta3, phi3, scale, toRad.
  replace (180 * (PI / 180) * (1 + 0)) with PI by field.
  replace (360 * (PI / 180) * (1 + 0)) with (2 * PI) by field.
  unfold rotate, startVec; cbn [x y z].
  rewrite cos_PI, sin_PI, cos_2PI, sin_2PI.
  f_equal; ring.
Qed.

Lemma PI_gt_3 : 3 < PI.
Proof. pose proof PI2_3_2. lra. Qed.

Lemma cos_3_20_upper : cos (3 / 20) < 0.99.
Proof.
  destruct (pre_cos_bound (3 / 20) 0) as [_ H]; [lra|lra|].
  eapply Rle_lt_trans; [exact H|].
  unfold cos_approx, cos_term; simpl. lra.
Qed.

Lemma cos_PI_20_upper : cos (PI / 20) < 0.99.
Proof.
  pose proof PI_gt_3. pose proof PI_4.
  eapply Rlt_trans; [|apply cos_3_20_upper].
  apply cos_decreasing_1; lra.
Qed.

(** *** Distances at the errors the claims single out *)

Lemma simple_dist_zero_lower : 0.05 * radius < dist (simpleEndVec 0) targetPole.
Proof.
  unfold dist. replace (0.05 * radius) with (sqrt (6 * 6)).
  2:{ rewrite sqrt_square; unfold radius; lra. }
  apply sqrt_lt_1_alt. split; [lra|].
  rewrite simple_distSq.
  replace (PI * (1 + 0) * (19 / 20)) with (- (PI / 20) + PI) by field.
  rewrite neg_cos, cos_neg.
  pose proof cos_PI_20_upper. unfold radius. lra.
Qed.

Lemma simple_dist_not_monotone :
  dist (simpleEndVec 0.05) targetPole < dist (simpleEndVec 0) targetPole.
Proof.
  unfold dist. apply sqrt_lt_1_alt. split; [apply distSq_nonneg|].
  rewrite !simple_distSq.
  pose proof PI_RGT_0 as Hpi.
  assert (cos (PI * (1 + 0.05) * (19 / 20)) < cos (PI * (1 + 0) * (19 / 20))).
  { apply cos_decreasing_1; lra. }
  unfold radius. lra.
Qed.

Lemma simple_dist_vanishes : dist (simpleEndVec (1 / 19)) targetPole = 0.
Proof.
  unfold dist. rewrite simple_distSq.
  replace (PI * (1 + 1 / 19) * (19 / 20)) with PI by field.
  rewrite cos_PI. replace (2 * radius * radius * (1 + -1)) with 0 by ring.
  apply sqrt_0.
Qed.

(** C5: the rotator preserves the Euclidean norm of every vector, for every
    axis angle and rotation angle; hence the start vector, every sample of the
    single pulse and the endpoint of the composite pulse all have norm
    [radius]. *)
Theorem rotate_preserves_norm :
  (forall (v : Vec3) (axisAngle theta : R),
      norm (rotate v axisAngle theta) = norm v) /\
  norm startVec = radius /\
  (forall (e : R) (i : nat), norm (simpleStep e i) = radius) /\
  (forall e : R, norm (scrofulousEndVec e) = radius).
Proof.
  pose proof radius_pos as Hr.
  split; [|split; [|split]].
  - intros v a t. unfold norm. now rewrite rotate_normSq.
  - apply norm_of_normSq; [lra|apply normSq_startVec].
  - intros e i. apply norm_of_normSq; [lra|].
    unfold simpleStep. rewrite rotate_normSq. apply normSq_startVec.
  - intros e. apply norm_of_normSq; [lra|apply normSq_scrofulousEndVec].
Qed.

(** C1, as the code behaves: for every calibration error in [-0.2, 0.2] the
    endpoint of the three-leg composite trajectory stays at least one sphere
    radius away from the target pole (so never within 5% of the radius), and
    it is farther from the target pole than the last point of the single
    pulse; with no error at all the three legs bring the vector back to the
    start pole, two radii from the target. *)
Theorem composite_endpoint_misses_target (e : R) :
  -0.2 <= e <= 0.2 ->
  endScrof e = projectVec (scrofulousEndVec e) /\
  endSimple e = projectVec (simpleEndVec e) /\
  scrofulousEndVec 0 = startVec /\
  dist (scrofulousEndVec 0) targetPole = 2 * radius /\
  radius <= dist (scrofulousEndVec e) targetPole /\
  0.05 * radius < dist (scrofulousEndVec e) targetPole /\
  dist (simpleEndVec e) targetPole < dist (scrofulousEndVec e) targetPole.
Proof.
  intros He.
  pose proof (scrofulous_dist_lower e) as Hc.
  pose proof (simple_dist_upper e He) as Hs.
  pose proof radius_pos as Hr.
  split; [apply endScrof_project|].
  split; [apply endSimple_project|].
  split; [apply scrofulousEndVec_zero|].
  split; [rewrite scrofulousEndVec_zero; apply dist_startVec_targetPole|].
  split; [exact Hc|].
  split; lra.
Qed.

Lemma composite_endpoint_misses_target_witness :
  -0.2 <= 0 <= 0.2 /\ radius <= dist (scrofulousEndVec 0) targetPole.
Proof.
  assert (H : -0.2 <= 0 <= 0.2) by lra.
  split; [exact H|].
  destruct (composite_endpoint_misses_target 0 H) as (_ & _ & _ & _ & Hd & _).
  exact Hd.
Defined.

(** C2, as the code behaves: the last point of the single-pulse polyline is
    the start vector rotated through 19/20 of the total angle (the loop pushes
    before it rotates); at zero error it lies more than 5% of the radius away
    from the target pole, the distance at error 0.05 is smaller than at error
    0, and it vanishes at error 1/19. *)
Theorem single_pulse_last_point_lags :
  (forall e : R,
      endSimple e =
      projectVec (rotate startVec 0 (simpleTotalAngle e * (19 / 20)))) /\
  0.05 * radius < dist (simpleEndVec 0) targetPole /\
  dist (simpleEndVec 0.05) targetPole < dist (simpleEndVec 0) targetPole /\
  dist (simpleEndVec (1 / 19)) targetPole = 0.
Proof.
  split; [|split; [|split]].
  - intros e. rewrite endSimple_project, simpleEndVec_unfold. reflexivity.
  - apply simple_dist_zero_lower.
  - apply simple_dist_not_monotone.
  - apply simple_dist_vanishes.
Qed.

End SphereSpec.

Module ChartsSpec.

Import Charts.
Local Open Scope R_scope.

(** *** Rounding *)

Lemma Int_part_bounds (r : R) : IZR (Int_part r) <= r < IZR (Int_part r) + 1.
Proof. destruct (base_Int_part r). lra. Qed.

Lemma Int_part_mono (r s : R) : r <= s -> (Int_part r <= Int_part s)%Z.
Proof.
  intros H. pose proof (Int_part_bounds r). pose proof (Int_part_bounds s).
  assert (Hlt : IZR (Int_part r) < IZR (Int_part s + 1)).
  { rewrite plus_IZR. lra. }
  apply lt_IZR in Hlt. lia.
Qed.

Lemma roundHalfUp_exact (k : Z) (r : R) :
  IZR k - / 2 <= r < IZR k + / 2 -> roundHalfUp r = k.
Proof.
  intros H. unfold roundHalfUp. symmetry. apply Int_part_spec. lra.
Qed.

Lemma pow10_pos (d : nat) : 0 < 10 ^ d.
Proof. apply pow_lt. lra. Qed.

Lemma toFixed_nonneg_eq (d : nat) (v : R) :
  0 <= v -> toFixed d v = IZR (roundHalfUp (v * 10 ^ d)) / 10 ^ d.
Proof.
  intros Hv. unfold toFixed. destruct (Rlt_dec v 0); [lra|reflexivity].
Qed.

(** On a non-negative number [toFixed] is off by at most half a unit of the
    last digit kept. *)
Lemma toFixed_error (d : nat) (v : R) :
  0 <= v -> Rabs (toFixed d v - v) <= / 2 / 10 ^ d.
Proof.
  intros Hv. rewrite toFixed_nonneg_eq by exact Hv.
  pose proof (pow10_pos d) as Hs. set (s := 10 ^ d) in *.
  pose proof (Int_part_bounds (v * s + / 2)) as [Hl Hu].
  unfold roundHalfUp. set (n := IZR (Int_part (v * s + / 2))) in *.
  replace (n / s - v) with ((n - v * s) / s) by (field; lra).
  unfold Rdiv at 1. rewrite Rabs_mult, (Rabs_pos_eq (/ s)).
  2:{ left. apply Rinv_0_lt_compat, Hs. }
  apply Rmult_le_compat_r; [left; apply Rinv_0_lt_compat, Hs|].
  apply Rabs_le. lra.
Qed.

Lemma toFixed_mono (d : nat) (v w : R) :
  0 <= v -> v <= w -> toFixed d v <= toFixed d w.
Proof.
  intros Hv Hw. rewrite !toFixed_nonneg_eq by lra.
  pose proof (pow10_pos d) as Hs.
  apply Rmult_le_compat_r; [left; apply Rinv_0_lt_compat, Hs|].
  apply IZR_le, Int_part_mono. nra.
Qed.

Lemma toFixed_exact (d : nat) (k : Z) (v : R) :
  0 <= v -> IZR k - / 2 <= v * 10 ^ d < IZR k + / 2 ->
  toFixed d v = IZR k / 10 ^ d.
Proof.
  intros Hv H. rewrite toFixed_nonneg_eq by exact Hv.
  now rewrite (roundHalfUp_exact k).
Qed.

(** *** [Math.pow] *)

Lemma Math_pow_pos_base (b e : R) : 0 < b -> Math_pow b e = Rpower b e.
Proof.
  intros Hb. unfold Math_pow.
  destruct (Req_dec_T e 0) as [->|_].
  - now rewrite Rpower_O.
  - destruct (Rlt_dec 0 b); [reflexivity|lra].
Qed.

Lemma Math_pow_zero_base (e : R) : 0 < e -> Math_pow 0 e = 0.
Proof.
  intros He. unfold Math_pow.
  destruct (Req_dec_T e 0); [lra|].
  destruct (Rlt_dec 0 0); [lra|reflexivity].
Qed.

Lemma Math_pow_nat (b : R) (m : nat) : 0 <= b -> Math_pow b (INR m) = b ^ m.
Proof.
  intros [Hb|<-].
  - rewrite Math_pow_pos_base by exact Hb. now apply Rpower_pow.
  - destruct m as [|m].
    + unfold Math_pow. simpl. destruct (Req_dec_T 0 0); [reflexivity|lra].
    + rewrite Math_pow_zero_base by (apply lt_0_INR; lia).
      simpl. ring.
Qed.

Lemma Math_pow_nonneg (b e : R) : 0 <= Math_pow b e.
Proof.
  unfold Math_pow. destruct (Req_dec_T e 0); [lra|].
  destruct (Rlt_dec 0 b); [|lra]. left. apply exp_pos.
Qed.

(** *** [generateDecayData] *)

Lemma decayLoop_seq (rng : nat -> R) (tau maxTime : R) (points : nat)
    (noise exponent : R) (n a draws : nat) (data : list DecaySample) :
  decayLoop rng tau maxTime points noise exponent (seq a n) draws data =
  (data ++ map (fun j => decaySample tau maxTime points noise exponent
                           (a + j) (rng (draws + j)%nat)) (seq 0 n),
   (draws + n)%nat).
Proof.
  revert a draws data. induction n as [|n IH]; intros a draws data.
  - simpl. now rewrite app_nil_r, Nat.add_0_r.
  - simpl. rewrite IH, <- app_assoc. simpl.
    rewrite <- seq_shift, map_map, !Nat.add_0_r.
    f_equal; [|lia]. f_equal. f_equal.
    apply map_ext. intros j.
    now rewrite !Nat.add_succ_r.
Qed.

Lemma generateDecayData_nth (rng : nat -> R) (draws : nat) (tau maxTime : R)
    (points : nat) (noise exponent : R) (i : nat) (d : DecaySample) :
  (i <= points)%nat ->
  nth i (fst (generateDecayData rng draws tau maxTime points noise exponent)) d
  = decaySample tau maxTime points noise exponent i (rng (draws + i)%nat).
Proof.
  intros Hi. unfold generateDecayData. rewrite decayLoop_seq. cbn [fst app].
  rewrite (nth_indep _ d (decaySample tau maxTime points noise exponent
                            (0 + 0) (rng (draws + 0)%nat))).
  2:{ rewrite length_map, length_seq. lia. }
  rewrite (map_nth (fun j => decaySample tau maxTime points noise exponent
                               (0 + j) (rng (draws + j)%nat))).
  rewrite seq_nth by lia. reflexivity.
Qed.


(** *** The decay curve *)


Lemma exp_16_lower : 2000 < exp 16.
Proof.
  pose proof (exp_ineq1_le 2) as H2.
  assert (H4 : 9 <= exp 4).
  { replace 4 with (2 + 2) by lra. rewrite exp_plus. nra. }
  assert (H8 : 81 <= exp 8).
  { replace 8 with (4 + 4) by lra. rewrite exp_plus. nra. }
  replace 16 with (8 + 8) by lra. rewrite exp_plus. nra.
Qed.

Lemma exp_neg16_small : 0 < exp (-16) < / 2000.
Proof.
  split; [apply exp_pos|].
  replace (-16) with (- (16)) by lra.
  rewrite exp_Ropp. apply Rinv_lt_contravar; [|apply exp_16_lower].
  pose proof exp_16_lower. nra.
Qed.

Lemma toFixed3_one : toFixed 3 1 = 1.
Proof.
  rewrite (toFixed_exact 3 1000); simpl; lra.
Qed.

Lemma decay_fit_at_zero (tau maxTime : R) (points : nat)
    (noise alpha rnd : R) :
  0 < alpha -> fit (decaySample tau maxTime points noise alpha 0 rnd) = 1.
Proof.
  intros Ha. unfold decaySample; cbn [fit].
  replace (maxTime / INR points * INR 0 / tau) with 0
    by (simpl; unfold Rdiv; ring).
  rewrite Math_pow_zero_base by exact Ha.
  rewrite Ropp_0, exp_0. apply toFixed3_one.
Qed.

Lemma Math_pow_one_one : Math_pow 1 1 = 1.
Proof. rewrite Math_pow_pos_base by lra. apply Rpower_1. lra. Qed.

Lemma decay_scenario (noise rnd : R) :
  let s := decaySample 12.6 20 100 noise 1 63 rnd in
  time s = 12.6 /\ Rabs (fit s - exp (-1)) < 0.001.
Proof.
  unfold decaySample; cbn [time fit].
  replace (20 / INR 100 * INR 63) with 12.6
    by (rewrite !INR_IZR_INZ; simpl; lra).
  split.
  - rewrite (toFixed_exact 1 126); simpl; lra.
  - replace (12.6 / 12.6) with 1 by lra.
    rewrite Math_pow_one_one.
    replace (-1) with (- (1)) by lra.
    eapply Rle_lt_trans; [apply toFixed_error; left; apply exp_pos|].
    simpl. lra.
Qed.

(** C8, as the code behaves: for [tau > 0], [maxTime >= 0], [points > 0] and a
    positive exponent, the [fit] field of the record at the grid time
    [t = (maxTime / points) * i] is [exp (- (t / tau) ^ alpha)] rounded to
    three decimals, hence within 0.0005 of it; the record at [i = 0] has
    [fit = 1]; at [t = tau] with exponent 1 the curve value is [exp (-1)]; and
    for [tau = 12.6], [maxTime = 20], [points = 100], exponent 1 the record
    whose time is 12.6 has [fit] within 0.001 of [exp (-1)]. *)
Theorem decay_fit_is_rounded_curve (rng : nat -> R) (draws : nat)
    (tau maxTime : R) (points : nat) (noise alpha : R) (i : nat) :
  0 < tau -> 0 <= maxTime -> (0 < points)%nat -> 0 < alpha ->
  (i <= points)%nat ->
  let data := fst (generateDecayData rng draws tau maxTime points noise alpha) in
  let t := maxTime / INR points * INR i in
  let scenario := fst (generateDecayData rng draws 12.6 20 100 noise 1) in
  fit (nth i data noSample) = toFixed 3 (exp (- Math_pow (t / tau) alpha)) /\
  Rabs (fit (nth i data noSample) - exp (- Math_pow (t / tau) alpha))
    <= 0.0005 /\
  fit (nth 0 data noSample) = 1 /\
  exp (- Math_pow (tau / tau) 1) = exp (-1) /\
  time (nth 63 scenario noSample) = 12.6 /\
  Rabs (fit (nth 63 scenario noSample) - exp (-1)) < 0.001.
Proof.
  intros Htau Hmax Hpts Halpha Hi data t scenario.
  unfold data, scenario.
  rewrite !generateDecayData_nth by lia.
  split; [reflexivity|].
  split.
  { unfold decaySample; cbn [fit]. fold t.
    eapply Rle_trans; [apply toFixed_error; left; apply exp_pos|].
    simpl. lra. }
  split; [apply decay_fit_at_zero, Halpha|].
  split.
  { replace (tau / tau) with 1 by (field; lra).
    rewrite Math_pow_one_one. f_equal; lra. }
  apply decay_scenario.
Qed.

Lemma decay_fit_is_rounded_curve_witness :
  let data := fst (generateDecayData (fun _ => 0.5) 0 12.6 20 100 0 1) in
  Rabs (fit (nth 63 data noSample) - exp (-1)) < 0.001.
Proof.
  assert (H1 : 0 < 12.6) by lra.
  assert (H2 : 0 <= 20) by lra.
  assert (H3 : (0 < 100)%nat) by lia.
  assert (H4 : 0 < 1) by lra.
  assert (H5 : (63 <= 100)%nat) by lia.
  destruct (decay_fit_is_rounded_curve (fun _ => 0.5) 0 12.6 20 100 0 1 63
              H1 H2 H3 H4 H5) as (_ & _ & _ & _ & _ & H).
  exact H.
Defined.

(** C8 as stated fails: with [tau = 1], [maxTime = 16], one interval and
    exponent 1, the record at [t = 16] carries [fit = 0], not [exp (-16)]. *)
Lemma decay_fit_not_exact :
  let data := fst (generateDecayData (fun _ => 0) 0 1 16 1 0 1) in
  fit (nth 1 data noSample) = 0 /\
  fit (nth 1 data noSample) <> exp (- Math_pow (16 / INR 1 * INR 1 / 1) 1).
Proof.
  cbv zeta. rewrite generateDecayData_nth by lia.
  unfold decaySample; cbn [fit].
  replace (16 / INR 1 * INR 1 / 1) with 16 by (simpl; field).
  rewrite Math_pow_pos_base, Rpower_1 by lra.
  pose proof exp_neg16_small as [Hp Hs].
  replace (- (16)) with (-16) by lra.
  assert (E : toFixed 3 (exp (-16)) = 0).
  { rewrite (toFixed_exact 3 0); simpl; lra. }
  rewrite E. split; [reflexivity|lra].
Qed.

(** *** [generateRBData] *)

Lemma scatterLoop_spec (rng : nat -> R) (m : nat) (avg : R) (cat : Category)
    (count draws : nat) (data : list RBSample) :
  exists l,
    fst (scatterLoop rng m avg cat count draws data) = data ++ l /\
    List.length l = count /\
    Forall (fun s => isLine s = false /\ sampleLength s = m) l /\
    snd (scatterLoop rng m avg cat count draws data) = (draws + count)%nat.
Proof.
  revert draws data. induction count as [|count IH]; intros draws data.
  - exists []. simpl. rewrite app_nil_r, Nat.add_0_r. auto.
  - simpl. destruct (IH (S draws) (data ++
      [Scatter m (toFixed 4
         (Rmin 1 (Rmax 0 (avg + (rng draws - 0.5) * variance m * 2)))) cat]))
      as (l & Hf & Hlen & Hall & Hs).
    eexists (_ :: l). rewrite Hf, Hs, <- app_assoc. simpl.
    repeat split; auto; lia.
Qed.

Lemma linesAt_app (m : nat) (a b : list RBSample) :
  linesAt m (a ++ b) = linesAt m a ++ linesAt m b.
Proof. apply filter_app. Qed.

Lemma linesAt_scatter (m m' : nat) (l : list RBSample) :
  Forall (fun s => isLine s = false /\ sampleLength s = m') l ->
  linesAt m l = [].
Proof.
  induction 1 as [|s l [Hs _] _ IH]; [reflexivity|].
  unfold linesAt in *. simpl. now rewrite Hs.
Qed.

Lemma linesAt_lineRecord (mode : Mode) (m m' : nat) :
  linesAt m [lineRecord mode m'] =
  if (m' =? m)%nat then [lineRecord mode m'] else [].
Proof. unfold linesAt. simpl. now destruct (m' =? m)%nat. Qed.

Lemma rbStep_lines (mode : Mode) (rng : nat -> R) (m m' draws : nat)
    (data : list RBSample) :
  linesAt m (fst (rbStep mode rng m' draws data)) =
  linesAt m data ++ (if (m' =? m)%nat then [lineRecord mode m'] else []).
Proof.
  unfold rbStep.
  destruct mode.
  - destruct (scatterLoop_spec rng m' (avgProbStd m') Standard
                sequencesPerLength draws data) as (l & Hf & _ & Hall & _).
    destruct (scatterLoop rng m' (avgProbStd m') Standard _ draws data)
      as [data' draws'].
    simpl in Hf. subst data'. cbn [fst].
    rewrite !linesAt_app, (linesAt_scatter m m' l Hall), app_nil_r.
    now rewrite linesAt_lineRecord.
  - destruct (scatterLoop_spec rng m' (avgProbIrb m') IRB
                sequencesPerLength draws data) as (l & Hf & _ & Hall & _).
    destruct (scatterLoop rng m' (avgProbIrb m') IRB _ draws data)
      as [data' draws'].
    simpl in Hf. subst data'. cbn [fst].
    rewrite !linesAt_app, (linesAt_scatter m m' l Hall), app_nil_r.
    now rewrite linesAt_lineRecord.
Qed.

Lemma rbLoop_lines (mode : Mode) (rng : nat -> R) (m : nat) (ls : list nat)
    (draws : nat) (data : list RBSample) :
  linesAt m (fst (rbLoop mode rng ls draws data)) =
  linesAt m data
    ++ map (lineRecord mode) (filter (fun m' => (m' =? m)%nat) ls).
Proof.
  revert draws data. induction ls as [|m' ls IH]; intros draws data.
  - simpl. now rewrite app_nil_r.
  - simpl. pose proof (rbStep_lines mode rng m m' draws data) as Hstep.
    destruct (rbStep mode rng m' draws data) as [data' draws'].
    rewrite IH. cbn [fst] in Hstep. rewrite Hstep, <- app_assoc.
    now destruct (m' =? m)%nat.
Qed.

(** Sorting on [length] leaves the records of one length in their order. *)
Lemma linesAt_insertByLength (m : nat) (s : RBSample) (l : list RBSample) :
  linesAt m (insertByLength s l) = linesAt m (s :: l).
Proof.
  induction l as [|s' l IH]; [reflexivity|].
  simpl. destruct (sampleLength s <=? sampleLength s')%nat eqn:E.
  - reflexivity.
  - apply Nat.leb_gt in E. unfold linesAt in *. simpl in *. rewrite IH.
    destruct (isLine s && (sampleLength s =? m)%nat) eqn:Es; [|reflexivity].
    apply andb_prop in Es as [_ Es]. apply Nat.eqb_eq in Es.
    replace (sampleLength s' =? m)%nat with false
      by (symmetry; apply Nat.eqb_neq; lia).
    now rewrite andb_false_r.
Qed.

Lemma linesAt_sortByLength (m : nat) (l : list RBSample) :
  linesAt m (sortByLength l) = linesAt m l.
Proof.
  induction l as [|s l IH]; [reflexivity|].
  simpl. rewrite linesAt_insertByLength.
  unfold linesAt in *. simpl. now rewrite IH.
Qed.

Lemma lengths_once (m : nat) :
  In m lengths -> filter (fun m' => (m' =? m)%nat) lengths = [m].
Proof.
  unfold lengths. intros Hm.
  repeat (destruct Hm as [<-|Hm]; [vm_compute; reflexivity|]).
  destruct Hm.
Qed.

Lemma generateRBData_lines (mode : Mode) (rng : nat -> R) (draws m : nat) :
  In m lengths ->
  linesAt m (fst (generateRBData mode rng draws)) = [lineRecord mode m].
Proof.
  intros Hm. unfold generateRBData.
  pose proof (rbLoop_lines mode rng m lengths draws []) as H.
  destruct (rbLoop mode rng lengths draws []) as [data draws'].
  cbn [fst] in *. rewrite linesAt_sortByLength, H, lengths_once by exact Hm.
  reflexivity.
Qed.

Lemma p_standard_pos : 0 < p_standard.
Proof. unfold p_standard. lra. Qed.

Lemma avgProbStd_pow (m : nat) : avgProbStd m = 0.5 + 0.5 * 0.9985 ^ m.
Proof.
  unfold avgProbStd, p_standard. rewrite Math_pow_nat by lra. reflexivity.
Qed.

Lemma avgProbIrb_pow (m : nat) :
  avgProbIrb m = 0.5 + 0.5 * (0.9985 * 0.9995) ^ m.
Proof.
  unfold avgProbIrb, p_irb. rewrite Math_pow_nat by lra. reflexivity.
Qed.

Lemma rbFit_mono (p f : R) (m : nat) :
  0 <= p -> 0 <= f -> f < 1 ->
  0.5 + 0.5 * Math_pow (p * f) (INR m) <= 0.5 + 0.5 * Math_pow p (INR m).
Proof.
  intros Hp Hf Hf1. rewrite !Math_pow_nat by nra.
  assert (H : (p * f) ^ m <= p ^ m) by (apply pow_incr; nra).
  lra.
Qed.

Lemma avgProbIrb_le (m : nat) : avgProbIrb m <= avgProbStd m.
Proof.
  unfold avgProbIrb, avgProbStd, p_irb, p_standard.
  apply rbFit_mono; lra.
Qed.

Lemma avgProbIrb_nonneg (m : nat) : 0 <= avgProbIrb m.
Proof. unfold avgProbIrb. pose proof (Math_pow_nonneg p_irb (INR m)). lra. Qed.

(** C9: for every length of the fixed list and every fidelity factor
    [0 <= f < 1], the interleaved fitted value [0.5 + 0.5 * (p_standard * f)^m]
    is at most the baseline fitted value [0.5 + 0.5 * p_standard^m]; with the
    constants of the code ([f = 0.9995]) this holds for the curve values and
    for the two fit fields of the record emitted in interleaved mode. *)
Theorem rb_interleaved_below_baseline (rng : nat -> R) (draws m : nat)
    (f : R) :
  In m lengths -> 0 <= f -> f < 1 ->
  0.5 + 0.5 * Math_pow (p_standard * f) (INR m)
    <= 0.5 + 0.5 * Math_pow p_standard (INR m) /\
  p_irb = p_standard * 0.9995 /\
  avgProbIrb m <= avgProbStd m /\
  linesAt m (fst (generateRBData irb rng draws)) =
    [Line m (toFixed 4 (avgProbStd m)) (Some (toFixed 4 (avgProbIrb m)))] /\
  toFixed 4 (avgProbIrb m) <= toFixed 4 (avgProbStd m).
Proof.
  intros Hm Hf Hf1.
  split; [apply rbFit_mono; [left; apply p_standard_pos|exact Hf|exact Hf1]|].
  split; [reflexivity|].
  split; [apply avgProbIrb_le|].
  split; [apply (generateRBData_lines irb), Hm|].
  apply toFixed_mono; [apply avgProbIrb_nonneg|apply avgProbIrb_le].
Qed.

Lemma rb_interleaved_below_baseline_witness :
  0.5 + 0.5 * Math_pow (p_standard * 0.9995) (INR 2)
    <= 0.5 + 0.5 * Math_pow p_standard (INR 2).
Proof.
  assert (Hm : In 2%nat lengths) by (simpl; auto).
  assert (Hf : 0 <= 0.9995) by lra.
  assert (Hf1 : 0.9995 < 1) by lra.
  destruct (rb_interleaved_below_baseline (fun _ => 0) 0 2 0.9995 Hm Hf Hf1)
    as (H & _).
  exact H.
Defined.

(** C10, as the code behaves: for every length of the fixed list the data set
    holds exactly one fitted-curve record; its [standard_fit] is
    [0.5 + 0.5 * 0.9985^m] rounded to four decimals, whatever the mode and the
    random draws, and its [irb_fit] is present exactly in 'irb' mode. *)
Theorem rb_standard_fit_mode_independent (mode : Mode) (rng : nat -> R)
    (draws m : nat) :
  In m lengths ->
  linesAt m (fst (generateRBData mode rng draws)) =
    [Line m (toFixed 4 (0.5 + 0.5 * 0.9985 ^ m))
            (match mode with
             | irb => Some (toFixed 4 (0.5 + 0.5 * (0.9985 * 0.9995) ^ m))
             | standard => None
             end)].
Proof.
  intros Hm. rewrite generateRBData_lines by exact Hm.
  unfold lineRecord. now rewrite avgProbStd_pow, avgProbIrb_pow.
Qed.

Lemma rb_standard_fit_mode_independent_witness :
  linesAt 2 (fst (generateRBData standard (fun _ => 0) 0)) =
    [Line 2 (toFixed 4 (0.5 + 0.5 * 0.9985 ^ 2)) None].
Proof.
  apply (rb_standard_fit_mode_independent standard (fun _ => 0) 0 2).
  simpl. auto.
Defined.

(** C10 as stated fails: at length 2 the emitted [standard_fit] is 0.9985, not
    [0.5 + 0.5 * 0.9985^2]. *)
Lemma rb_standard_fit_not_exact :
  linesAt 2 (fst (generateRBData standard (fun _ => 0) 0)) =
    [Line 2 0.9985 None] /\
  0.9985 <> 0.5 + 0.5 * 0.9985 ^ 2.
Proof.
  split; [|simpl; lra].
  rewrite generateRBData_lines by (simpl; auto).
  unfold lineRecord. rewrite avgProbStd_pow.
  rewrite (toFixed_exact 4 9985); simpl; try lra.
  do 2 f_equal. lra.
Qed.

End ChartsSpec.

Module TransportSpec.

Import Transport.
Local Open Scope Q_scope.

(** Division by a constant, made linear. *)
Ltac qconst :=
  unfold Qdiv in *;
  change (/ 0.15) with (100 # 15) in *;
  change (/ 0.6) with (10 # 6) in *;
  change (/ 2) with (1 # 2) in *.

Ltac frame_cases t :=
  unfold frame;
  destruct (Qlt_le_dec t 0.15) as [?H|?H];
  [|destruct (Qlt_le_dec t 0.75) as [?H|?H];
    [|destruct (Qlt_le_dec t 0.9) as [?H|?H]]];
  cbn [slmPower aodPower x stage].

Lemma frame_powers (t : Q) :
  0 <= t -> t < 1 ->
  0 <= slmPower (frame t) <= 1 /\ 0 <= aodPower (frame t) <= 1.
Proof.
  intros H0 H1. frame_cases t; qconst; repeat split; lra.
Qed.

Lemma stage_cases (t : Q) :
  (t < 0.15 /\ stage (frame t) = phaseLabel HandoverStart) \/
  (0.15 <= t /\ t < 0.75 /\ stage (frame t) = phaseLabel Transit) \/
  (0.75 <= t /\ t < 0.9 /\ stage (frame t) = phaseLabel HandoverEnd) \/
  (0.9 <= t /\ stage (frame t) = phaseLabel Resetting).
Proof.
  frame_cases t; simpl; auto 10.
Qed.

Lemma phaseLabel_inj (p q : Phase) : phaseLabel p = phaseLabel q -> p = q.
Proof. destruct p, q; simpl; intros H; try reflexivity; discriminate H. Qed.

Lemma easeCubicInOut_bounds (s : Q) :
  0 <= s -> s <= 1 -> 0 <= easeCubicInOut s <= 1.
Proof.
  intros H0 H1. unfold easeCubicInOut.
  destruct (Qle_bool (s * 2) 1) eqn:E.
  - apply Qle_bool_iff in E. qconst.
    assert (0 <= s * s) by nra.
    assert (s * s <= 1 # 4) by nra.
    assert (0 <= s * s * s) by nra.
    assert (s * s * s <= 1 # 8) by nra.
    split; nra.
  - assert (E' : 1 < s * 2).
    { apply Qnot_le_lt. intros C. apply Qle_bool_iff in C. congruence. }
    qconst.
    set (u := 2 - s * 2).
    assert (Hu0 : 0 <= u) by (unfold u; lra).
    assert (Hu1 : u < 1) by (unfold u; lra).
    assert (0 <= u * u) by nra.
    assert (u * u <= 1) by nra.
    assert (0 <= u * u * u) by nra.
    assert (u * u * u <= 1) by nra.
    assert (Eq : (s * 2 - 2) * (s * 2 - 2) * (s * 2 - 2) == - (u * u * u))
      by (unfold u; ring).
    rewrite Eq. split; lra.
Qed.

(** *** The frame depends on the value of [t] only *)

Lemma easeCubicInOut_compat (s s' : Q) :
  s == s' -> easeCubicInOut s == easeCubicInOut s'.
Proof.
  intros E. unfold easeCubicInOut.
  destruct (Qle_bool (s * 2) 1) eqn:E1, (Qle_bool (s' * 2) 1) eqn:E2.
  - now rewrite E.
  - apply Qle_bool_iff in E1. rewrite E in E1. apply Qle_bool_iff in E1.
    congruence.
  - apply Qle_bool_iff in E2. rewrite <- E in E2. apply Qle_bool_iff in E2.
    congruence.
  - now rewrite E.
Qed.

Lemma frame_compat (t t' : Q) :
  t == t' ->
  x (frame t) == x (frame t') /\
  slmPower (frame t) == slmPower (frame t') /\
  aodPower (frame t) == aodPower (frame t') /\
  stage (frame t) = stage (frame t').
Proof.
  intros E. unfold frame.
  destruct (Qlt_le_dec t 0.15), (Qlt_le_dec t' 0.15); try lra;
    [cbn [x slmPower aodPower stage]; rewrite E; repeat split; reflexivity|].
  destruct (Qlt_le_dec t 0.75), (Qlt_le_dec t' 0.75); try lra.
  { cbn [x slmPower aodPower stage]. repeat split; try reflexivity.
    rewrite (easeCubicInOut_compat ((t - 0.15) / 0.6) ((t' - 0.15) / 0.6)).
    - reflexivity.
    - now rewrite E. }
  destruct (Qlt_le_dec t 0.9), (Qlt_le_dec t' 0.9); try lra;
    cbn [x slmPower aodPower stage]; rewrite ?E; repeat split; reflexivity.
Qed.

(** *** The cycle time of a frame *)

Lemma truncate_nonneg (q : Q) :
  0 <= q -> inject_Z (truncate q) <= q /\ q < inject_Z (truncate q) + 1.
Proof.
  intros Hq. unfold truncate.
  assert (Hn : (0 <= Qnum q)%Z).
  { unfold Qle in Hq. simpl in Hq. lia. }
  rewrite Z.quot_div_nonneg by lia.
  replace (Qnum q / Z.pos (Qden q))%Z with (Qfloor q)
    by (destruct q; reflexivity).
  split; [apply Qfloor_le|].
  pose proof (Qlt_floor q) as H. rewrite inject_Z_plus in H. exact H.
Qed.

Lemma animate_cycleTime (startTime timestamp : Q) :
  startTime <= timestamp ->
  0 <= cycleTime (snd (animate startTime timestamp)) < 1.
Proof.
  intros Hle. unfold animate; cbn [snd cycleTime].
  set (s := if Qeq_bool startTime 0 then timestamp else startTime).
  assert (Hd : 0 <= timestamp - s).
  { unfold s. destruct (Qeq_bool startTime 0); lra. }
  unfold jsRem, totalDuration.
  assert (Hq : 0 <= (timestamp - s) / 8000).
  { unfold Qdiv. change (/ 8000) with (1 # 8000). lra. }
  pose proof (truncate_nonneg _ Hq) as [Hl Hu].
  set (k := inject_Z (truncate ((timestamp - s) / 8000))) in *.
  clearbody k. unfold Qdiv in *. change (/ 8000) with (1 # 8000) in *.
  split; lra.
Qed.

(** *** The waveform polylines, point by point *)

Lemma graphLoop_seq (n a : nat) (dS dA : list (Q * Q)) :
  graphLoop (seq a n) dS dA =
  (dS ++ map slmPoint (seq a n), dA ++ map aodPoint (seq a n)).
Proof.
  revert a dS dA. induction n as [|n IH]; intros a dS dA.
  - simpl. now rewrite !app_nil_r.
  - simpl. unfold slmPoint at 1, aodPoint at 1.
    destruct (graphSample (graphTime a)) as [gpS gpA].
    rewrite IH, <- !app_assoc. reflexivity.
Qed.

Lemma dataSLM_nth (i : nat) (d : Q * Q) :
  (i < graphPoints)%nat -> nth i dataSLM d = slmPoint i.
Proof.
  intros Hi. unfold dataSLM, waveforms. rewrite graphLoop_seq. cbn [fst app].
  rewrite (nth_indep _ d (slmPoint 0)) by (now rewrite length_map, length_seq).
  rewrite map_nth, seq_nth by exact Hi. reflexivity.
Qed.

Lemma dataAOD_nth (i : nat) (d : Q * Q) :
  (i < graphPoints)%nat -> nth i dataAOD d = aodPoint i.
Proof.
  intros Hi. unfold dataAOD, waveforms. rewrite graphLoop_seq. cbn [snd app].
  rewrite (nth_indep _ d (aodPoint 0)) by (now rewrite length_map, length_seq).
  rewrite map_nth, seq_nth by exact Hi. reflexivity.
Qed.

(** Before the reset phase the graph samples the schedule of the frame; the
    AOD curve does so on the whole cycle. *)
Lemma waveform_agrees_before_reset (gt : Q) :
  gt < 0.9 ->
  fst (graphSample gt) == slmPower (frame gt) /\
  snd (graphSample gt) == aodPower (frame gt).
Proof.
  intros H. unfold graphSample. frame_cases gt; cbn [fst snd];
    try lra; split; reflexivity.
Qed.

Lemma waveform_aod_agrees (gt : Q) :
  snd (graphSample gt) == aodPower (frame gt).
Proof.
  unfold graphSample. frame_cases gt; cbn [fst snd]; reflexivity.
Qed.

Lemma waveform_slm_in_reset (gt : Q) :
  0.9 <= gt ->
  fst (graphSample gt) == 0 /\ slmPower (frame gt) == 1.
Proof.
  intros H. unfold graphSample. frame_cases gt; cbn [fst snd];
    try lra; split; reflexivity.
Qed.

(** *** The claims on the transport engine *)

(** C7: for every normalized cycle time [t] in [0, 1) the source and the
    destination intensity of the frame both lie in [0, 1]. *)
Theorem powers_within_unit_interval (t : Q) :
  0 <= t -> t < 1 ->
  0 <= slmPower (frame t) <= 1 /\ 0 <= aodPower (frame t) <= 1.
Proof. apply frame_powers. Qed.

Lemma powers_within_unit_interval_witness :
  0 <= slmPower (frame 0.1) <= 1 /\ 0 <= aodPower (frame 0.1) <= 1.
Proof.
  apply (powers_within_unit_interval 0.1); [discriminate|reflexivity].
Defined.

(** The same bounds for the frame drawn by any call of [animate] whose
    timestamp is not before the recorded start. *)
Lemma animate_powers (startTime timestamp : Q) :
  startTime <= timestamp ->
  let f := state (snd (animate startTime timestamp)) in
  0 <= slmPower f <= 1 /\ 0 <= aodPower f <= 1.
Proof.
  intros Hle. destruct (animate_cycleTime startTime timestamp Hle) as [H0 H1].
  apply frame_powers; assumption.
Qed.

(** C6: on [0, 1) the stage label is the start handover exactly for
    [t < 0.15], transport exactly for [0.15 <= t < 0.75], the end handover
    exactly for [0.75 <= t < 0.9] and reset exactly for [0.9 <= t]; a step of
    at most 0.15 forward keeps the phase or enters the next one; and a sweep
    of the cycle in increments of 1/100 meets the four labels in this order,
    again in the following cycle. *)
Theorem stage_order (t t' : Q) :
  0 <= t -> t <= t' -> t' < 1 -> t' - t <= 0.15 ->
  ((t < 0.15 <-> stage (frame t) = phaseLabel HandoverStart) /\
   (0.15 <= t /\ t < 0.75 <-> stage (frame t) = phaseLabel Transit) /\
   (0.75 <= t /\ t < 0.9 <-> stage (frame t) = phaseLabel HandoverEnd) /\
   (0.9 <= t <-> stage (frame t) = phaseLabel Resetting)) /\
  (exists p : Phase,
      stage (frame t) = phaseLabel p /\
      (stage (frame t') = phaseLabel p \/
       stage (frame t') = phaseLabel (nextPhase p))) /\
  stageChanges "" (sweep 100) =
    map phaseLabel [HandoverStart; Transit; HandoverEnd; Resetting] /\
  stageChanges "" (sweep 100 ++ sweep 100) =
    map phaseLabel [HandoverStart; Transit; HandoverEnd; Resetting;
                    HandoverStart; Transit; HandoverEnd; Resetting].
Proof.
  intros H0 Hle H1 Hstep.
  split; [|split; [|split; vm_compute; reflexivity]].
  - destruct (stage_cases t) as [[Ha Hs]|[(Ha & Hb & Hs)|[(Ha & Hb & Hs)|[Ha Hs]]]];
      rewrite Hs; repeat apply conj;
      try (intros Hr; try destruct Hr; first [reflexivity | exfalso; lra]);
      intros Hx;
      first [apply phaseLabel_inj in Hx; discriminate Hx | lra | split; lra].
  - destruct (stage_cases t) as [[Ha Hs]|[(Ha & Hb & Hs)|[(Ha & Hb & Hs)|[Ha Hs]]]];
      destruct (stage_cases t') as [[Ha' Hs']|[(Ha' & Hb' & Hs')|[(Ha' & Hb' & Hs')|[Ha' Hs']]]];
      try lra; eexists; (split; [exact Hs|]); rewrite Hs'; simpl; auto.
Qed.

Lemma stage_order_witness :
  exists p : Phase,
    stage (frame 0.1) = phaseLabel p /\
    (stage (frame 0.2) = phaseLabel p \/
     stage (frame 0.2) = phaseLabel (nextPhase p)).
Proof.
  assert (H0 : 0 <= 0.1) by discriminate.
  assert (Hle : 0.1 <= 0.2) by discriminate.
  assert (H1 : 0.2 < 1) by reflexivity.
  assert (Hstep : 0.2 - 0.1 <= 0.15) by discriminate.
  destruct (stage_order 0.1 0.2 H0 Hle H1 Hstep) as (_ & H & _).
  exact H.
Defined.

(** C3, as the code behaves: in the reset phase the SLM polyline is drawn at
    amplitude 0 while the frame holds [slmPower = 1]; so it is at sample 95
    and at every sample from 90 to 99. *)
Theorem waveform_disagrees_in_reset :
  nth 95 dataSLM (0, 0) =
    (graphTime 95 * 700, 100 - fst (graphSample (graphTime 95)) * 90) /\
  fst (graphSample (graphTime 95)) == 0 /\
  slmPower (frame (graphTime 95)) == 1 /\
  Forall (fun i => fst (graphSample (graphTime i)) == 0 /\
                   slmPower (frame (graphTime i)) == 1) (seq 90 10).
Proof.
  split; [apply dataSLM_nth; unfold graphPoints; lia|].
  split; [apply waveform_slm_in_reset; discriminate|].
  split; [apply waveform_slm_in_reset; discriminate|].
  repeat constructor; apply waveform_slm_in_reset; discriminate.
Qed.

(** C4 as stated fails: no input of [animate] selects a path policy; two
    frames with the same cycle time always place the atom at the same
    position. *)
Lemma no_path_policy_selector :
  ~ (exists st1 ts1 st2 ts2 : Q,
        let d1 := snd (animate st1 ts1) in
        let d2 := snd (animate st2 ts2) in
        cycleTime d1 == cycleTime d2 /\
        ~ (fst (atom d1) == fst (atom d2) /\ snd (atom d1) == snd (atom d2))).
Proof.
  intros (st1 & ts1 & st2 & ts2 & Ht & Hne). apply Hne.
  unfold animate in *; cbn [snd cycleTime atom fst] in *.
  split; [|reflexivity].
  apply frame_compat, Ht.
Qed.

(** C4, as the code behaves: the engine has one position derivation.  In a
    frame whose cycle time lies in the Transport phase the stage is
    "Diagonal Transport", the source intensity is 0 and the destination
    intensity 1, and the atom sits at
    [(startX + (endX - startX) * ease ((t - 0.15) / 0.6), yPos)], between
    [startX] and [endX] on the line [y = yPos]; the two movement strategies
    are the two polylines of the inset, with common end points. *)
Theorem transport_position_single_policy (startTime timestamp : Q) :
  let d := snd (animate startTime timestamp) in
  0.15 <= cycleTime d -> cycleTime d < 0.75 ->
  stage (state d) = "Diagonal Transport"%string /\
  slmPower (state d) = 0 /\
  aodPower (state d) = 1 /\
  atom d = (startX + (endX - startX)
                     * easeCubicInOut ((cycleTime d - 0.15) / 0.6), yPos) /\
  startX <= fst (atom d) <= endX /\
  hd (0, 0) pathDiagonal = hd (0, 0) pathStraight /\
  last pathDiagonal (0, 0) = last pathStraight (0, 0) /\
  pathStraight = [(20, 130); (130, 130); (130, 20)] /\
  pathDiagonal = [(20, 130); (130, 20)].
Proof.
  intros d Hl Hu. unfold d, animate in *. cbn [snd cycleTime state atom fst] in *.
  set (t := jsRem _ _ / totalDuration) in *. clearbody t.
  unfold frame.
  destruct (Qlt_le_dec t 0.15) as [C|_]; [lra|].
  destruct (Qlt_le_dec t 0.75) as [_|C]; [|lra].
  cbn [stage slmPower aodPower x].
  repeat (split; [reflexivity|]).
  split; [|repeat split; reflexivity].
  assert (Hs : 0 <= (t - 0.15) / 0.6 <= 1) by (qconst; split; lra).
  pose proof (easeCubicInOut_bounds _ (proj1 Hs) (proj2 Hs)) as [He0 He1].
  unfold startX, endX in *.
  set (e := easeCubicInOut ((t - 0.15) / 0.6)) in *. clearbody e.
  split; lra.
Qed.

Lemma transport_position_single_policy_witness :
  atom (snd (animate 1000 4600)) =
    (startX + (endX - startX)
              * easeCubicInOut ((cycleTime (snd (animate 1000 4600)) - 0.15)
                                / 0.6), yPos).
Proof.
  assert (Hl : 0.15 <= cycleTime (snd (animate 1000 4600)))
    by (vm_compute; discriminate).
  assert (Hu : cycleTime (snd (animate 1000 4600)) < 0.75)
    by (vm_compute; reflexivity).
  destruct (transport_position_single_policy 1000 4600 Hl Hu)
    as (_ & _ & _ & H & _).
  exact H.
Defined.

End TransportSpec.

Module SphereExtra.

Import Sphere SphereAux.
Local Open Scope R_scope.

Lemma rotate_zero (v : Vec3) (axisAngle : R) : rotate v axisAngle 0 = v.
Proof.
  destruct v as [a b c]. unfold rotate; cbn [x y z].
  rewrite cos_0, sin_0. f_equal; ring.
Qed.

(** X1: a rotation through angle 0 or through a full turn leaves every vector
    unchanged; two rotations about the same axis compose to the rotation
    through the sum of the angles, and the opposite angle undoes a
    rotation. *)
Theorem rotate_compose (v : Vec3) (axisAngle t1 t2 : R) :
  rotate v axisAngle 0 = v /\
  rotate v axisAngle (2 * PI) = v /\
  rotate (rotate v axisAngle t1) axisAngle t2 = rotate v axisAngle (t1 + t2) /\
  rotate (rotate v axisAngle t1) axisAngle (- t1) = v.
Proof.
  split; [apply rotate_zero|].
  split.
  { destruct v as [a b c]. unfold rotate; cbn [x y z].
    rewrite cos_2PI, sin_2PI. f_equal; ring. }
  assert (H : forall u s1 s2,
             rotate (rotate u axisAngle s1) axisAngle s2
             = rotate u axisAngle (s1 + s2)).
  { intros [a b c] s1 s2. unfold rotate; cbn [x y z].
    rewrite cos_plus, sin_plus.
    pose proof (sin2_cos2 axisAngle) as Ha. unfold Rsqr in Ha.
    set (ca := cos axisAngle) in *. set (sa := sin axisAngle) in *.
    set (c1 := cos s1). set (d1 := sin s1).
    set (c2 := cos s2). set (d2 := sin s2).
    clearbody ca sa c1 d1 c2 d2.
    f_equal; nsatz. }
  split; [apply H|].
  rewrite H. replace (t1 + - t1) with 0 by ring.
  apply rotate_zero.
Qed.

(** X2: a rotation keeps the component of a vector along the rotation axis,
    and it fixes every vector lying on the axis. *)
Theorem rotate_keeps_axis_component (v : Vec3) (axisAngle theta r : R) :
  x (rotate v axisAngle theta) * cos axisAngle
    + z (rotate v axisAngle theta) * sin axisAngle
  = x v * cos axisAngle + z v * sin axisAngle /\
  rotate {| x := r * cos axisAngle; y := 0; z := r * sin axisAngle |}
         axisAngle theta
  = {| x := r * cos axisAngle; y := 0; z := r * sin axisAngle |}.
Proof.
  destruct v as [a b c]. unfold rotate; cbn [x y z].
  pose proof (sin2_cos2 axisAngle) as Ha. unfold Rsqr in Ha.
  set (ca := cos axisAngle) in *. set (sa := sin axisAngle) in *.
  set (ct := cos theta). set (st := sin theta). clearbody ca sa ct st.
  split; [nsatz|f_equal; nsatz].
Qed.

(** X3: a half turn about any horizontal axis flips a vertical vector, so it
    carries the start pole to the target pole; with no calibration error the
    vector the single-pulse loop holds when it ends is the target pole. *)
Theorem half_turn_reaches_target (axisAngle b : R) :
  rotate {| x := 0; y := b; z := 0 |} axisAngle PI
    = {| x := 0; y := - b; z := 0 |} /\
  rotate startVec axisAngle PI = targetPole /\
  fst (simpleLoop 0 (seq 0 (S simpleSteps)) startVec []) = targetPole.
Proof.
  assert (H : forall a, rotate startVec a PI = targetPole).
  { intros a. unfold rotate, startVec, targetPole; cbn [x y z].
    rewrite cos_PI, sin_PI. f_equal; ring. }
  split.
  { unfold rotate; cbn [x y z]. rewrite cos_PI, sin_PI. f_equal; ring. }
  split; [apply H|].
  rewrite seq_S, SphereSpec.simpleLoop_snoc. cbn [fst].
  unfold simpleStep, simpleTotalAngle, simpleSteps.
  replace (PI * (1 + 0) * (INR (0 + 20) / INR 20)) with PI.
  - apply H.
  - replace (INR (0 + 20)) with 20 by (simpl; lra).
    replace (INR 20) with 20 by (simpl; lra). field.
Qed.


Lemma project_within_norm (v : Vec3) : screenDistSq (projectVec v) <= normSq v.
Proof.
  destruct v as [a b c].
  unfold screenDistSq, projectVec, project, normSq; cbn [x y z cx cy].
  pose proof (sin2_cos2 0.5) as Hr. pose proof (sin2_cos2 0.4) as Ht.
  unfold Rsqr in Hr, Ht.
  set (cr := cos 0.5) in *. set (sr := sin 0.5) in *.
  set (ct := cos 0.4) in *. set (st := sin 0.4) in *.
  clearbody cr sr ct st.
  assert (E : a * a + b * b + c * c
              - ((centerX + (a * cr - c * sr) - centerX)
                 * (centerX + (a * cr - c * sr) - centerX)
                 + (centerY + (b * ct - (a * sr + c * cr) * st) - centerY)
                   * (centerY + (b * ct - (a * sr + c * cr) * st) - centerY))
              = (b * st + (a * sr + c * cr) * ct)
                * (b * st + (a * sr + c * cr) * ct)) by nsatz.
  pose proof (Rle_0_sqr (b * st + (a * sr + c * cr) * ct)) as Hs.
  unfold Rsqr in Hs. lra.
Qed.

Lemma onDisc_sphere (v : Vec3) :
  normSq v = radius * radius -> onDisc (projectVec v).
Proof.
  intros H. unfold onDisc. rewrite <- H. apply project_within_norm.
Qed.

Lemma simpleLoop_onDisc (e : R) (iters : list nat) (cur : Vec3)
    (pts : list ScreenPoint) :
  normSq cur = radius * radius -> Forall onDisc pts ->
  Forall onDisc (snd (simpleLoop e iters cur pts)).
Proof.
  revert cur pts. induction iters as [|i rest IH]; intros cur pts Hc Hp.
  - exact Hp.
  - simpl. apply IH.
    + unfold simpleStep. rewrite SphereSpec.rotate_normSq.
      apply SphereSpec.normSq_startVec.
    + apply Forall_app. split; [exact Hp|].
      constructor; [|constructor]. apply (onDisc_sphere cur Hc).
Qed.

Lemma addPathLoop_onDisc (steps : nat) (angle axisPhase : R) (start : Vec3)
    (iters : list nat) (cur : Vec3) (pts : list ScreenPoint) :
  normSq start = radius * radius -> normSq cur = radius * radius ->
  Forall onDisc pts ->
  normSq (fst (addPathLoop steps angle axisPhase start iters cur pts))
    = radius * radius /\
  Forall onDisc (snd (addPathLoop steps angle axisPhase start iters cur pts)).
Proof.
  intros Hs. revert cur pts.
  induction iters as [|i rest IH]; intros cur pts Hc Hp.
  - split; assumption.
  - simpl. apply IH.
    + now rewrite SphereSpec.rotate_normSq.
    + apply Forall_app. split; [exact Hp|].
      constructor; [|constructor].
      apply (onDisc_sphere (rotate start axisPhase _)).
      now rewrite SphereSpec.rotate_normSq.
Qed.

Lemma simpleLoop_length (e : R) (iters : list nat) (cur : Vec3)
    (pts : list ScreenPoint) :
  List.length (snd (simpleLoop e iters cur pts))
  = (List.length pts + List.length iters)%nat.
Proof.
  revert cur pts. induction iters as [|i rest IH]; intros cur pts; simpl.
  - lia.
  - rewrite IH, length_app. simpl. lia.
Qed.

Lemma addPathLoop_length (steps : nat) (angle axisPhase : R) (start : Vec3)
    (iters : list nat) (cur : Vec3) (pts : list ScreenPoint) :
  List.length (snd (addPathLoop steps angle axisPhase start iters cur pts))
  = (List.length pts + List.length iters)%nat.
Proof.
  revert cur pts. induction iters as [|i rest IH]; intros cur pts; simpl.
  - lia.
  - rewrite IH, length_app. simpl. lia.
Qed.

Lemma onDisc_inView (p : ScreenPoint) : onDisc p -> inView p.
Proof.
  unfold onDisc, inView, screenDistSq, centerX, centerY, width, height, radius.
  intros H. pose proof (Rle_0_sqr (cx p - 500 / 2)) as H1.
  pose proof (Rle_0_sqr (cy p - 400 / 2)) as H2. unfold Rsqr in *.
  repeat split; nra.
Qed.

Lemma scrofulousPoints_length (e : R) :
  List.length (scrofulousPoints e) = 56%nat.
Proof.
  unfold scrofulousPoints, scrofulous, addPath.
  pose proof (addPathLoop_length 15 (theta1 e) phi1 startVec (seq 1 15)
                startVec [project (x startVec) (y startVec) (z startVec)])
    as L1.
  destruct (addPathLoop 15 (theta1 e) phi1 startVec (seq 1 15) startVec _)
    as [c1 p1]. cbn [snd] in L1.
  pose proof (addPathLoop_length 25 (theta2 e) phi2 c1 (seq 1 25) c1 p1)
    as L2.
  destruct (addPathLoop 25 (theta2 e) phi2 c1 (seq 1 25) c1 p1)
    as [c2 p2]. cbn [snd] in L2.
  rewrite addPathLoop_length, L2, L1, !length_seq. reflexivity.
Qed.

(** X4: whatever the calibration error, the single-pulse polyline has 21
    points and the composite polyline 56, and every one of them lies on the
    disc of the sphere outline (centre [(centerX, centerY)], radius
    [radius]), hence inside the 500 by 400 drawing. *)
Theorem trajectories_stay_on_disc (e : R) :
  Forall onDisc (simplePoints e) /\ Forall onDisc (scrofulousPoints e) /\
  Forall inView (simplePoints e) /\ Forall inView (scrofulousPoints e) /\
  List.length (simplePoints e) = 21%nat /\
  List.length (scrofulousPoints e) = 56%nat.
Proof.
  assert (Hs : Forall onDisc (simplePoints e)).
  { apply simpleLoop_onDisc; [apply SphereSpec.normSq_startVec|constructor]. }
  assert (Hc : Forall onDisc (scrofulousPoints e)).
  2:{ split; [exact Hs|]. split; [exact Hc|].
      split; [eapply Forall_impl; [apply onDisc_inView|exact Hs]|].
      split; [eapply Forall_impl; [apply onDisc_inView|exact Hc]|].
      split.
      - unfold simplePoints. rewrite simpleLoop_length, length_seq. reflexivity.
      - apply scrofulousPoints_length. }
  - unfold scrofulousPoints, scrofulous, addPath.
    pose proof SphereSpec.normSq_startVec as H0.
    destruct (addPathLoop_onDisc 15 (theta1 e) phi1 startVec (seq 1 15)
                startVec [project (x startVec) (y startVec) (z startVec)]
                H0 H0) as [H1 P1].
    { constructor; [|constructor]. apply (onDisc_sphere startVec H0). }
    destruct (addPathLoop 15 (theta1 e) phi1 startVec (seq 1 15) startVec _)
      as [c1 p1]. cbn [fst snd] in H1, P1.
    destruct (addPathLoop_onDisc 25 (theta2 e) phi2 c1 (seq 1 25) c1 p1
                H1 H1 P1) as [H2 P2].
    destruct (addPathLoop 25 (theta2 e) phi2 c1 (seq 1 25) c1 p1)
      as [c2 p2]. cbn [fst snd] in H2, P2.
    apply (addPathLoop_onDisc 15 (theta3 e) phi3 c2 (seq 1 15) c2 p2 H2 H2 P2).
Qed.

(** The points of the single-pulse polyline, one by one. *)
Lemma simpleLoop_points (e : R) (iters : list nat) (cur : Vec3)
    (pts : list ScreenPoint) :
  snd (simpleLoop e iters cur pts)
  = pts ++ map projectVec (firstn (List.length iters)
                             (cur :: map (simpleStep e) iters)).
Proof.
  revert cur pts. induction iters as [|i rest IH]; intros cur pts.
  - simpl. now rewrite app_nil_r.
  - cbn [simpleLoop]. rewrite IH, <- app_assoc. reflexivity.
Qed.

(** X5: the single-pulse polyline starts with the projection of the start
    vector twice, followed by the projections of the start vector rotated
    through 1/20, ..., 19/20 of the total angle. *)
Theorem simplePoints_samples (e : R) :
  simplePoints e
  = projectVec startVec :: projectVec startVec
    :: map (fun k => projectVec (simpleStep e k)) (seq 1 19).
Proof.
  unfold simplePoints. rewrite simpleLoop_points. cbn [app].
  rewrite length_seq.
  change (seq 0 (S simpleSteps)) with (0 :: seq 1 19 ++ [20])%nat.
  cbn [map firstn].
  assert (E0 : simpleStep e 0 = startVec).
  { unfold simpleStep.
    replace (simpleTotalAngle e * (INR 0 / INR simpleSteps)) with 0
      by (simpl; unfold Rdiv; ring).
    apply rotate_zero. }
  rewrite E0. reflexivity.
Qed.

End SphereExtra.

Module ChartsExtra.

Import Charts ChartsAux ChartsSpec.
Local Open Scope R_scope.

(** *** Rounding, both signs *)




Lemma toFixed_zero (d : nat) : toFixed d 0 = 0.
Proof.
  rewrite (toFixed_exact d 0); [unfold Rdiv; ring|lra|].
  rewrite Rmult_0_l. lra.
Qed.

Lemma toFixed_one (d : nat) : toFixed d 1 = 1.
Proof.
  pose proof (pow10_pos d) as Hs.
  rewrite toFixed_nonneg_eq by lra. rewrite Rmult_1_l.
  replace (10 ^ d) with (IZR (10 ^ Z.of_nat d)).
  2:{ rewrite <- pow_IZR. reflexivity. }
  rewrite (roundHalfUp_exact (10 ^ Z.of_nat d)) by lra.
  field. rewrite <- pow_IZR. change (IZR 10) with 10. lra.
Qed.

Lemma toFixed_unit (d : nat) (v : R) :
  0 <= v <= 1 -> 0 <= toFixed d v <= 1.
Proof.
  intros [H0 H1]. split.
  - rewrite <- (toFixed_zero d). apply toFixed_mono; lra.
  - rewrite <- (toFixed_one d). apply toFixed_mono; lra.
Qed.

(** *** The decay curve before rounding *)

Lemma Math_pow_mono (a b alpha : R) :
  0 < alpha -> 0 <= a <= b -> Math_pow a alpha <= Math_pow b alpha.
Proof.
  intros Ha [H0 Hab].
  destruct (Rle_lt_or_eq_dec 0 a H0) as [Hpos|<-].
  - rewrite !Math_pow_pos_base by lra.
    apply Rle_Rpower_l; lra.
  - rewrite Math_pow_zero_base by exact Ha. apply Math_pow_nonneg.
Qed.

Lemma exp_le_compat (a b : R) : a <= b -> exp a <= exp b.
Proof.
  intros [H| ->]; [left; now apply exp_increasing|right; reflexivity].
Qed.

Lemma curve_unit (tau alpha t : R) : 0 <= curve tau alpha t <= 1.
Proof.
  unfold curve. split; [left; apply exp_pos|].
  rewrite <- exp_0. apply exp_le_compat.
  pose proof (Math_pow_nonneg (t / tau) alpha). lra.
Qed.

Lemma curve_decreasing (tau alpha s t : R) :
  0 < tau -> 0 < alpha -> 0 <= s <= t ->
  curve tau alpha t <= curve tau alpha s.
Proof.
  intros Htau Ha [H0 Hst]. unfold curve. apply exp_le_compat.
  apply Ropp_le_contravar, Math_pow_mono; [exact Ha|].
  assert (Hi : 0 < / tau) by now apply Rinv_0_lt_compat.
  unfold Rdiv. split; nra.
Qed.

(** X7: for [tau > 0], [maxTime >= 0] and a positive exponent the emitted
    [fit] values never increase along the grid, and each lies in [0, 1]. *)
Theorem decay_fit_never_increases (rng : nat -> R) (draws : nat)
    (tau maxTime : R) (points : nat) (noise alpha : R) (i : nat) :
  0 < tau -> 0 <= maxTime -> 0 < alpha -> (i < points)%nat ->
  let data := fst (generateDecayData rng draws tau maxTime points noise alpha) in
  fit (nth (S i) data noSample) <= fit (nth i data noSample) /\
  0 <= fit (nth i data noSample) <= 1 /\
  0 <= fit (nth (S i) data noSample) <= 1.
Proof.
  intros Htau Hmax Ha Hi data. unfold data.
  rewrite !generateDecayData_nth by lia.
  unfold decaySample; cbn [fit].
  fold (curve tau alpha (maxTime / INR points * INR i)).
  fold (curve tau alpha (maxTime / INR points * INR (S i))).
  split; [|split; apply toFixed_unit, curve_unit].
  apply toFixed_mono; [apply curve_unit|].
  apply curve_decreasing; [exact Htau|exact Ha|].
  assert (Hp : 0 < INR points) by (apply lt_0_INR; lia).
  assert (Hstep : 0 <= maxTime / INR points).
  { unfold Rdiv. apply Rmult_le_pos; [exact Hmax|].
    left. now apply Rinv_0_lt_compat. }
  pose proof (pos_INR i) as Hi0. rewrite S_INR. split; nra.
Qed.

Lemma decay_fit_never_increases_witness :
  let data := fst (generateDecayData (fun _ => 0.5) 0 12.6 20 100 0.05 1.5) in
  fit (nth 1 data noSample) <= fit (nth 0 data noSample).
Proof.
  assert (H1 : 0 < 12.6) by lra.
  assert (H2 : 0 <= 20) by lra.
  assert (H3 : 0 < 1.5) by lra.
  assert (H4 : (0 < 100)%nat) by lia.
  destruct (decay_fit_never_increases (fun _ => 0.5) 0 12.6 20 100 0.05 1.5 0
              H1 H2 H3 H4) as [H _].
  exact H.
Defined.






(** X9: with noise amplitude 0 every measured value that is present equals
    the [fit] of its record, whatever the random draws. *)
Theorem decay_zero_noise (rng : nat -> R) (draws : nat)
    (tau maxTime : R) (points : nat) (alpha : R) (i : nat) :
  (i <= points)%nat -> (i mod 5 = 0)%nat ->
  let data := fst (generateDecayData rng draws tau maxTime points 0 alpha) in
  measured (nth i data noSample) = Some (fit (nth i data noSample)).
Proof.
  intros Hi Hm data. unfold data.
  rewrite generateDecayData_nth by exact Hi.
  unfold decaySample; cbn [measured fit].
  apply Nat.eqb_eq in Hm. rewrite Hm. do 2 f_equal. ring.
Qed.

Lemma decay_zero_noise_witness :
  let data := fst (generateDecayData (fun _ => 0.9) 0 12.6 20 100 0 1) in
  measured (nth 5 data noSample) = Some (fit (nth 5 data noSample)).
Proof.
  apply (decay_zero_noise (fun _ => 0.9) 0 12.6 20 100 1 5); [lia|reflexivity].
Defined.


(** *** The randomized-benchmarking data set *)






(** *** The fitted curves *)

Lemma pow_strict_decr (p : R) (m m' : nat) :
  0 < p < 1 -> (m < m')%nat -> p ^ m' < p ^ m.
Proof.
  intros [Hp0 Hp1] Hlt. induction Hlt as [|k _ IH].
  - simpl. assert (0 < p ^ m) by now apply pow_lt. nra.
  - simpl. assert (0 < p ^ k) by now apply pow_lt. nra.
Qed.

(** X11: both fitted curves decrease strictly with the sequence length;
    the interleaved one stays above 0.5 and at most the standard one, which is
    at most 1 and equals 1 at length 0. *)
Theorem rb_curves_decrease (m m' : nat) :
  (m < m')%nat ->
  avgProbStd m' < avgProbStd m /\
  avgProbIrb m' < avgProbIrb m /\
  0.5 < avgProbIrb m <= avgProbStd m /\
  avgProbStd m <= 1 /\
  avgProbStd 0 = 1.
Proof.
  intros Hlt. rewrite !avgProbStd_pow, !avgProbIrb_pow.
  assert (H1 : 0.9985 ^ m' < 0.9985 ^ m) by (apply pow_strict_decr; [lra|lia]).
  assert (H2 : (0.9985 * 0.9995) ^ m' < (0.9985 * 0.9995) ^ m)
    by (apply pow_strict_decr; [lra|lia]).
  assert (H3 : 0 < (0.9985 * 0.9995) ^ m) by (apply pow_lt; lra).
  assert (H4 : (0.9985 * 0.9995) ^ m <= 0.9985 ^ m) by (apply pow_incr; lra).
  assert (H5 : 0.9985 ^ m <= 1).
  { rewrite <- (pow1 m). apply pow_incr. lra. }
  simpl. repeat split; lra.
Qed.

Lemma rb_curves_decrease_witness :
  avgProbStd 10 < avgProbStd 2.
Proof.
  assert (H : (2 < 10)%nat) by lia.
  destruct (rb_curves_decrease 2 10 H) as [H1 _]. exact H1.
Defined.

End ChartsExtra.

Module TransportExtra.

Import Transport TransportSpec.
Local Open Scope Q_scope.

(** X12: at every cycle time the two trap intensities of the frame add up
    to 1. *)
Theorem trap_power_is_conserved (t : Q) :
  slmPower (frame t) + aodPower (frame t) == 1.
Proof. frame_cases t; qconst; ring. Qed.

(** *** The easing curve *)

Lemma Qsquare_nonneg (c : Q) : 0 <= c * c.
Proof. destruct (Qlt_le_dec c 0); nra. Qed.

Lemma cube_mono (a b : Q) : a <= b -> a * a * a <= b * b * b.
Proof.
  intros H.
  assert (E : b * b * b - a * a * a
              == (b - a) * ((a + b * (1 # 2)) * (a + b * (1 # 2))
                            + (3 # 4) * (b * b))) by ring.
  pose proof (Qsquare_nonneg (a + b * (1 # 2))).
  pose proof (Qsquare_nonneg b).
  assert (0 <= (b - a) * ((a + b * (1 # 2)) * (a + b * (1 # 2))
                            + (3 # 4) * (b * b))) by nra.
  lra.
Qed.

Lemma easeCubicInOut_mono (s s' : Q) :
  s <= s' -> easeCubicInOut s <= easeCubicInOut s'.
Proof.
  intros H. unfold easeCubicInOut.
  destruct (Qle_bool (s * 2) 1) eqn:E1, (Qle_bool (s' * 2) 1) eqn:E2.
  - pose proof (cube_mono (s * 2) (s' * 2)). qconst. lra.
  - apply Qle_bool_iff in E1.
    assert (E2' : 1 < s' * 2).
    { apply Qnot_le_lt. intros C. apply Qle_bool_iff in C. congruence. }
    pose proof (cube_mono (s * 2) 1).
    pose proof (cube_mono 1 (s' * 2)).
    pose proof (cube_mono (-1) (s' * 2 - 2)).
    qconst. lra.
  - apply Qle_bool_iff in E2.
    assert (E1' : 1 < s * 2).
    { apply Qnot_le_lt. intros C. apply Qle_bool_iff in C. congruence. }
    lra.
  - pose proof (cube_mono (s * 2 - 2) (s' * 2 - 2)). qconst. lra.
Qed.

Lemma easeCubicInOut_ends :
  easeCubicInOut 0 == 0 /\ easeCubicInOut 1 == 1 /\
  easeCubicInOut (1 # 2) == 1 # 2.
Proof. repeat split; vm_compute; reflexivity. Qed.

(** X13: on a cycle the atom stays between [startX] and [endX]; it rests at
    [startX] up to the start of the transport and during the reset, at
    [endX] during the end handover, and it never moves backwards during the
    transport. *)
Theorem atom_position_profile (t t' : Q) :
  0 <= t -> t <= t' -> t' < 1 ->
  startX <= x (frame t) <= endX /\
  (t <= 0.15 -> x (frame t) == startX) /\
  (0.75 <= t -> t < 0.9 -> x (frame t) == endX) /\
  (0.9 <= t -> x (frame t) == startX) /\
  (0.15 <= t -> t' < 0.75 -> x (frame t) <= x (frame t')).
Proof.
  intros H0 Hle H1.
  split; [|split; [|split; [|split]]].
  - frame_cases t; unfold startX, endX; try (split; lra).
    assert (Hs : 0 <= (t - 0.15) / 0.6 <= 1) by (qconst; split; lra).
    pose proof (easeCubicInOut_bounds _ (proj1 Hs) (proj2 Hs)) as [He0 He1].
    set (e := easeCubicInOut ((t - 0.15) / 0.6)) in *. clearbody e.
    split; lra.
  - intros Ht. frame_cases t; try reflexivity; try lra.
    assert (E : t == 0.15) by lra.
    rewrite (easeCubicInOut_compat ((t - 0.15) / 0.6) 0).
    + vm_compute. reflexivity.
    + rewrite E. vm_compute. reflexivity.
  - intros Ha Hb. frame_cases t; try reflexivity; lra.
  - intros Ha. frame_cases t; try reflexivity; lra.
  - intros Ha Hb. unfold frame.
    destruct (Qlt_le_dec t 0.15); [lra|].
    destruct (Qlt_le_dec t 0.75); [|lra].
    destruct (Qlt_le_dec t' 0.15); [lra|].
    destruct (Qlt_le_dec t' 0.75); [|lra].
    cbn [x]. unfold startX, endX.
    assert (Hm : (t - 0.15) / 0.6 <= (t' - 0.15) / 0.6) by (qconst; lra).
    pose proof (easeCubicInOut_mono _ _ Hm). lra.
Qed.

Lemma atom_position_profile_witness :
  startX <= x (frame 0.3) <= endX.
Proof.
  assert (H0 : 0 <= 0.3) by discriminate.
  assert (Hle : 0.3 <= 0.5) by discriminate.
  assert (H1 : 0.5 < 1) by reflexivity.
  destruct (atom_position_profile 0.3 0.5 H0 Hle H1) as [H _]. exact H.
Defined.


(** *** The clock of [animate] *)

Lemma truncate_unique (q : Q) (k : Z) :
  0 <= q -> inject_Z k <= q -> q < inject_Z k + 1 -> truncate q = k.
Proof.
  intros Hq Hl Hu. destruct (truncate_nonneg q Hq) as [Tl Tu].
  assert (H1 : inject_Z k < inject_Z (truncate q + 1)).
  { rewrite inject_Z_plus. change (inject_Z 1) with 1. lra. }
  assert (H2 : inject_Z (truncate q) < inject_Z (k + 1)).
  { rewrite inject_Z_plus. change (inject_Z 1) with 1. lra. }
  rewrite <- Zlt_Qlt in H1, H2. lia.
Qed.

Lemma jsRem_range (a b : Q) : 0 <= a -> 0 < b -> 0 <= jsRem a b < b.
Proof.
  intros Ha Hb. unfold jsRem.
  assert (Hq : 0 <= a / b) by (apply Qle_shift_div_l; lra).
  destruct (truncate_nonneg _ Hq) as [Tl Tu].
  set (k := inject_Z (truncate (a / b))) in *. clearbody k.
  assert (E : a == a / b * b) by (field; lra).
  set (q := a / b) in *. clearbody q. split; nra.
Qed.

Lemma jsRem_period (a b : Q) :
  0 <= a -> 0 < b -> jsRem (a + b) b == jsRem a b.
Proof.
  intros Ha Hb. unfold jsRem.
  assert (Hq : 0 <= a / b) by (apply Qle_shift_div_l; lra).
  destruct (truncate_nonneg _ Hq) as [Tl Tu].
  assert (E : (a + b) / b == a / b + 1) by (field; lra).
  rewrite (truncate_unique ((a + b) / b) (truncate (a / b) + 1)).
  - rewrite inject_Z_plus. change (inject_Z 1) with 1. ring.
  - rewrite E. lra.
  - rewrite inject_Z_plus, E. change (inject_Z 1) with 1. lra.
  - rewrite inject_Z_plus, E. change (inject_Z 1) with 1. lra.
Qed.

Lemma jsRem_small (a b : Q) : 0 <= a -> a < b -> jsRem a b == a.
Proof.
  intros Ha Hb. unfold jsRem.
  rewrite (truncate_unique (a / b) 0).
  - change (inject_Z 0) with 0. ring.
  - apply Qle_shift_div_l; lra.
  - change (inject_Z 0) with 0. apply Qle_shift_div_l; lra.
  - change (inject_Z 0 + 1) with 1. apply Qlt_shift_div_r; lra.
Qed.

(** X14: when the timestamp is not before the recorded start, the cycle
    time of the frame lies in [0, 1) and the time cursor in [0, 700); a start
    time already recorded is kept, and a call that finds it at 0 records the
    timestamp and begins the cycle at time 0. *)
Theorem animate_clock (startTime timestamp : Q) :
  startTime <= timestamp ->
  let r := animate startTime timestamp in
  0 <= cycleTime (snd r) < 1 /\
  0 <= currentTimeX (snd r) < 700 /\
  (~ startTime == 0 -> fst r = startTime) /\
  (startTime == 0 -> fst r = timestamp /\ cycleTime (snd r) == 0).
Proof.
  intros Hle r.
  pose proof (animate_cycleTime startTime timestamp Hle) as Hc.
  fold r in Hc. split; [exact Hc|].
  unfold r, animate in *; cbn [fst snd cycleTime currentTimeX state] in *.
  split; [lra|].
  split.
  - intros Hne. destruct (Qeq_bool startTime 0) eqn:E; [|reflexivity].
    apply Qeq_bool_iff in E. contradiction.
  - intros He. apply Qeq_bool_iff in He. rewrite He.
    split; [reflexivity|].
    rewrite (jsRem_small (timestamp - timestamp) totalDuration).
    + unfold totalDuration. field.
    + lra.
    + unfold totalDuration. lra.
Qed.

Lemma animate_clock_witness :
  0 <= cycleTime (snd (animate 1000 4600)) < 1.
Proof.
  assert (H : 1000 <= 4600) by discriminate.
  destruct (animate_clock 1000 4600 H) as [Hc _]. exact Hc.
Defined.

(** X15: once the start is recorded, a timestamp one [totalDuration] later
    gives the same cycle time, position, intensities and stage. *)
Theorem animate_is_periodic (startTime timestamp : Q) :
  ~ startTime == 0 -> startTime <= timestamp ->
  let d := snd (animate startTime timestamp) in
  let d' := snd (animate startTime (timestamp + totalDuration)) in
  cycleTime d' == cycleTime d /\
  x (state d') == x (state d) /\
  slmPower (state d') == slmPower (state d) /\
  aodPower (state d') == aodPower (state d) /\
  stage (state d') = stage (state d).
Proof.
  intros Hne Hle d d'.
  assert (E : cycleTime d' == cycleTime d).
  { unfold d, d', animate; cbn [snd cycleTime].
    destruct (Qeq_bool startTime 0) eqn:E0.
    { apply Qeq_bool_iff in E0. contradiction. }
    assert (Es : timestamp + totalDuration - startTime
                 == timestamp - startTime + totalDuration) by ring.
    assert (Ej : jsRem (timestamp + totalDuration - startTime) totalDuration
                 == jsRem (timestamp - startTime) totalDuration).
    { rewrite <- (jsRem_period (timestamp - startTime) totalDuration);
        [|lra|unfold totalDuration; lra].
      unfold jsRem.
      assert (Et : truncate ((timestamp + totalDuration - startTime)
                             / totalDuration)
                   = truncate ((timestamp - startTime + totalDuration)
                               / totalDuration)).
      { assert (Hq : 0 <= (timestamp - startTime + totalDuration)
                          / totalDuration)
          by (apply Qle_shift_div_l; unfold totalDuration; lra).
        destruct (truncate_nonneg _ Hq) as [Tl Tu].
        apply truncate_unique.
        - rewrite Es. exact Hq.
        - rewrite Es. exact Tl.
        - rewrite Es. exact Tu. }
      rewrite Et, Es. reflexivity. }
    rewrite Ej. reflexivity. }
  split; [exact E|].
  unfold d, d', animate in *; cbn [snd cycleTime state] in *.
  apply frame_compat, E.
Qed.

Lemma animate_is_periodic_witness :
  cycleTime (snd (animate 1000 (4600 + totalDuration)))
  == cycleTime (snd (animate 1000 4600)).
Proof.
  assert (Hne : ~ 1000 == 0) by discriminate.
  assert (Hle : 1000 <= 4600) by discriminate.
  destruct (animate_is_periodic 1000 4600 Hne Hle) as [H _]. exact H.
Defined.

(** *** The wells *)

(** X16: before the reset phase the SLM well, whenever its intensity is
    positive, is drawn at the atom; in the reset phase the well has full
    intensity at [endX] while the atom is drawn at [startX]. *)
Theorem slm_well_follows_atom (startTime timestamp : Q) :
  startTime <= timestamp ->
  let d := snd (animate startTime timestamp) in
  (cycleTime d < 0.9 -> 0 < slmPower (state d) -> slmX d == x (state d)) /\
  (0.9 <= cycleTime d ->
   slmPower (state d) == 1 /\ slmX d == endX /\ x (state d) == startX /\
   ~ slmX d == x (state d)).
Proof.
  intros Hle d. unfold d, animate; cbn [snd cycleTime state slmX atom fst].
  set (t := jsRem _ _ / totalDuration). clearbody t.
  split.
  - intros Ht Hp. unfold frame in *.
    destruct (Qlt_le_dec t 0.15); cbn [slmPower x] in *.
    { destruct (Qlt_le_dec 0.5 t); [lra|reflexivity]. }
    destruct (Qlt_le_dec t 0.75); cbn [slmPower x] in *; [lra|].
    destruct (Qlt_le_dec t 0.9); cbn [slmPower x] in *; [|lra].
    destruct (Qlt_le_dec 0.5 t); [reflexivity|lra].
  - intros Ht. unfold frame.
    destruct (Qlt_le_dec t 0.15); [lra|].
    destruct (Qlt_le_dec t 0.75); [lra|].
    destruct (Qlt_le_dec t 0.9); [lra|]. cbn [slmPower x].
    destruct (Qlt_le_dec 0.5 t); [|lra].
    repeat split; try reflexivity. discriminate.
Qed.

Lemma slm_well_follows_atom_witness :
  slmX (snd (animate 1000 1400)) == x (state (snd (animate 1000 1400))).
Proof.
  assert (H : 1000 <= 1400) by discriminate.
  destruct (slm_well_follows_atom 1000 1400 H) as [Ha _].
  apply Ha; vm_compute; reflexivity.
Defined.

(** *** The waveform polylines *)

Lemma graphSample_unit (gt : Q) :
  0 <= gt ->
  0 <= fst (graphSample gt) <= 1 /\ 0 <= snd (graphSample gt) <= 1.
Proof.
  intros H. unfold graphSample.
  destruct (Qlt_le_dec gt 0.15); [cbn [fst snd]; qconst; repeat split; lra|].
  destruct (Qlt_le_dec gt 0.75); [cbn [fst snd]; repeat split; lra|].
  destruct (Qlt_le_dec gt 0.9); cbn [fst snd]; qconst; repeat split; lra.
Qed.

Lemma graphTime_value (i : nat) : graphTime i == inject_Z (Z.of_nat i) / 100.
Proof. reflexivity. Qed.

Lemma graphTime_nonneg (i : nat) : 0 <= graphTime i.
Proof.
  unfold graphTime. apply Qle_shift_div_l; [reflexivity|].
  rewrite Qmult_0_l. change 0 with (inject_Z 0). rewrite <- Zle_Qle. lia.
Qed.

(** X17: each waveform polyline has 100 points; point [i] has abscissa
    [7 * i] and an ordinate between 10 and 100, inside the graph box. *)
Theorem waveforms_fit_the_graph (i : nat) :
  (i < graphPoints)%nat ->
  List.length dataSLM = 100%nat /\ List.length dataAOD = 100%nat /\
  fst (nth i dataSLM (0, 0)) == inject_Z (7 * Z.of_nat i) /\
  fst (nth i dataAOD (0, 0)) == inject_Z (7 * Z.of_nat i) /\
  10 <= snd (nth i dataSLM (0, 0)) <= 100 /\
  10 <= snd (nth i dataAOD (0, 0)) <= 100.
Proof.
  intros Hi.
  split; [unfold dataSLM, waveforms; rewrite graphLoop_seq; cbn [fst app];
          now rewrite length_map, length_seq|].
  split; [unfold dataAOD, waveforms; rewrite graphLoop_seq; cbn [snd app];
          now rewrite length_map, length_seq|].
  rewrite dataSLM_nth, dataAOD_nth by exact Hi.
  unfold slmPoint, aodPoint; cbn [fst snd].
  destruct (graphSample_unit (graphTime i) (graphTime_nonneg i))
    as [[S0 S1] [A0 A1]].
  assert (E : graphTime i * 700 == inject_Z (7 * Z.of_nat i)).
  { rewrite graphTime_value, inject_Z_mult. change (inject_Z 7) with 7.
    field. }
  repeat split; try exact E; lra.
Qed.

Lemma waveforms_fit_the_graph_witness :
  10 <= snd (nth 95 dataSLM (0, 0)) <= 100.
Proof.
  assert (H : (95 < graphPoints)%nat) by (unfold graphPoints; lia).
  destruct (waveforms_fit_the_graph 95 H) as (_ & _ & _ & _ & Hs & _).
  exact Hs.
Defined.

(** X18: at every sample the AOD polyline plots the [aodPower] of the frame
    at that cycle time, and so does the SLM polyline with [slmPower] at the
    samples before 90. *)
Theorem waveforms_sample_the_frame (i : nat) :
  (i < graphPoints)%nat ->
  snd (nth i dataAOD (0, 0)) == 100 - aodPower (frame (graphTime i)) * 90 /\
  ((i < 90)%nat ->
   snd (nth i dataSLM (0, 0)) == 100 - slmPower (frame (graphTime i)) * 90).
Proof.
  intros Hi. rewrite dataSLM_nth, dataAOD_nth by exact Hi.
  unfold slmPoint, aodPoint; cbn [snd].
  split.
  - now rewrite waveform_aod_agrees.
  - intros H90.
    destruct (waveform_agrees_before_reset (graphTime i)) as [Hs _].
    + rewrite graphTime_value. apply Qlt_shift_div_r; [reflexivity|].
      apply Qlt_le_trans with (inject_Z 90);
        [rewrite <- Zlt_Qlt; lia|discriminate].
    + now rewrite Hs.
Qed.

Lemma waveforms_sample_the_frame_witness :
  snd (nth 50 dataAOD (0, 0)) == 100 - aodPower (frame (graphTime 50)) * 90.
Proof.
  assert (H : (50 < graphPoints)%nat) by (unfold graphPoints; lia).
  destruct (waveforms_sample_the_frame 50 H) as [Ha _]. exact Ha.
Defined.

End TransportExtra.

(** ** Loops that push one value per iteration *)

Lemma fold_push {A B : Type} (f : B -> A) (l : list B) (acc : list A) :
  fold_left (fun acc b => acc ++ [f b]) l acc = acc ++ map f l.
Proof.
  revert acc. induction l as [|b l IH]; intros acc; simpl.
  - now rewrite app_nil_r.
  - now rewrite IH, <- app_assoc.
Qed.

Lemma fold_push_rows {A : Type} (f : nat -> nat -> A) (n : nat)
    (rows : list nat) (acc : list A) :
  fold_left (fun acc r => fold_left (fun acc c => acc ++ [f c r]) (seq 0 n) acc)
            rows acc
  = acc ++ flat_map (fun r => map (fun c => f c r) (seq 0 n)) rows.
Proof.
  revert acc. induction rows as [|r rows IH]; intros acc; simpl.
  - now rewrite app_nil_r.
  - now rewrite IH, fold_push, <- app_assoc.
Qed.

Lemma nth_rows {A : Type} (f : nat -> nat -> A) (n : nat) (rows : list nat)
    (k c : nat) (d : A) :
  (k < List.length rows)%nat -> (c < n)%nat ->
  nth (k * n + c) (flat_map (fun r => map (fun c => f c r) (seq 0 n)) rows) d
  = f c (nth k rows 0%nat).
Proof.
  revert k. induction rows as [|r rows IH]; intros k Hk Hc; simpl in Hk.
  - lia.
  - cbn [flat_map]. destruct k as [|k].
    + rewrite app_nth1 by (rewrite length_map, length_seq; lia).
      simpl Nat.add.
      rewrite (nth_indep _ d (f 0%nat r)) by (rewrite length_map, length_seq; lia).
      rewrite (map_nth (fun c => f c r)), seq_nth by lia. reflexivity.
    + rewrite app_nth2 by (rewrite length_map, length_seq; lia).
      rewrite length_map, length_seq.
      replace (S k * n + c - n)%nat with (k * n + c)%nat by lia.
      apply IH; lia.
Qed.

Lemma length_rows {A : Type} (f : nat -> nat -> A) (n : nat) (rows : list nat) :
  List.length (flat_map (fun r => map (fun c => f c r) (seq 0 n)) rows)
  = (List.length rows * n)%nat.
Proof.
  induction rows as [|r rows IH]; [reflexivity|].
  cbn [flat_map]. rewrite length_app, length_map, length_seq, IH. simpl. lia.
Qed.

Lemma nested_push_inner {A : Type} (g : nat -> nat -> A) (n a : nat)
    (acc : list A) (d : nat) :
  fold_left (fun '(acc, d) i => (acc ++ [g i d], S d)) (seq a n) (acc, d)
  = (acc ++ map (fun i => g i (d + (i - a))%nat) (seq a n), (d + n)%nat).
Proof.
  revert a acc d. induction n as [|n IH]; intros a acc d.
  - simpl. now rewrite app_nil_r, Nat.add_0_r.
  - cbn [seq fold_left]. rewrite IH, <- app_assoc. cbn [map app].
    rewrite Nat.sub_diag, Nat.add_0_r.
    apply f_equal2; [|lia]. do 2 apply f_equal.
    apply map_ext_in. intros i Hin. apply in_seq in Hin.
    apply f_equal. lia.
Qed.

Lemma nested_push {A : Type} (g : nat -> nat -> nat -> A) (n m b : nat)
    (acc : list A) (d : nat) :
  fold_left
    (fun st o =>
       fold_left (fun '(acc, d) i => (acc ++ [g o i d], S d)) (seq 0 n) st)
    (seq b m) (acc, d)
  = (acc ++ flat_map
              (fun o => map (fun i => g o i (d + (o - b) * n + i)%nat)
                            (seq 0 n))
              (seq b m),
     (d + m * n)%nat).
Proof.
  revert b acc d. induction m as [|m IH]; intros b acc d.
  - simpl. now rewrite app_nil_r, Nat.add_0_r.
  - cbn [seq fold_left]. rewrite (nested_push_inner (g b)), IH, <- app_assoc.
    cbn [flat_map]. rewrite Nat.sub_diag.
    apply f_equal2; [|lia]. apply f_equal. apply f_equal2.
    + apply map_ext. intros i. apply f_equal. lia.
    + rewrite !flat_map_concat_map. apply f_equal.
      apply map_ext_in. intros o Hin. apply in_seq in Hin.
      apply map_ext. intros i. apply f_equal.
      replace (o - b)%nat with (S (o - S b)) by lia. lia.
Qed.

Module ImagingExtra.

Import Imaging.
Local Open Scope R_scope.

Lemma exp_le_iff (a b : R) : exp a <= exp b <-> a <= b.
Proof.
  split.
  - intros H. destruct (Rle_lt_dec a b) as [|Hlt]; [assumption|].
    apply exp_increasing in Hlt. lra.
  - intros [H| ->]; [left; now apply exp_increasing|right; reflexivity].
Qed.

Lemma exp_neg_unit (a : R) : 0 <= a -> 0 < exp (- a) <= 1.
Proof.
  intros Ha. split; [apply exp_pos|].
  rewrite <- exp_0. apply exp_le_iff. lra.
Qed.

Lemma weight_unit (c r : nat) : 0 < weight c r <= 1.
Proof.
  unfold weight, Math_pow_int, sigma.
  replace (- ((INR c - INR center) ^ 2 + (INR r - INR center) ^ 2)
           / (2 * 1.2 * 1.2))
    with (- (((INR c - INR center) ^ 2 + (INR r - INR center) ^ 2)
             / (2 * 1.2 * 1.2))) by (unfold Rdiv; ring).
  apply exp_neg_unit.
  apply Rmult_le_pos; [|lra].
  apply Rplus_le_le_0_compat; apply pow2_ge_0.
Qed.

Lemma weightMatrix_cells (c r : nat) :
  (c < size)%nat -> (r < size)%nat ->
  List.length weightMatrix = 49%nat /\
  nth (r * size + c) weightMatrix 0 = weight c r.
Proof.
  intros Hc Hr. unfold weightMatrix.
  rewrite fold_push_rows. cbn [app].
  split; [rewrite length_rows, length_seq; reflexivity|].
  rewrite (nth_rows (fun c r => weight c r)) by (rewrite ?length_seq; assumption).
  now rewrite seq_nth by assumption.
Qed.

(** X19: the weight matrix has 49 entries in row-major order; every weight
    lies in (0, 1], the centre weight is 1, the matrix is symmetric under
    mirroring either index and under transposition, and the opacity a weight
    is drawn with lies in (0.1, 1]. *)
Theorem weight_matrix_shape (c r : nat) :
  (c < size)%nat -> (r < size)%nat ->
  List.length weightMatrix = 49%nat /\
  nth (r * size + c) weightMatrix 0 = weight c r /\
  0 < weight c r <= 1 /\
  weight center center = 1 /\
  weight (6 - c) r = weight c r /\
  weight c (6 - r) = weight c r /\
  weight r c = weight c r /\
  0.1 < opacity true (weight c r) <= 1.
Proof.
  intros Hc Hr. unfold weightMatrix.
  rewrite fold_push_rows. cbn [app].
  split; [rewrite length_rows, length_seq; reflexivity|].
  split.
  { rewrite (nth_rows (fun c r => weight c r)) by (rewrite ?length_seq; assumption).
    now rewrite seq_nth by assumption. }
  pose proof (weight_unit c r) as Hw.
  split; [exact Hw|].
  split.
  { unfold weight, Math_pow_int. rewrite Rminus_diag.
    replace (- (0 ^ 2 + 0 ^ 2) / (2 * sigma * sigma)) with 0
      by (unfold Rdiv; ring).
    apply exp_0. }
  assert (Hm : forall k, (k < size)%nat ->
                 (INR (6 - k) - INR center) ^ 2 = (INR k - INR center) ^ 2).
  { intros k Hk. unfold size in Hk. rewrite minus_INR by lia.
    unfold center, size. simpl Nat.div.
    replace (INR 6) with 6 by (simpl; lra).
    replace (INR 3) with 3 by (simpl; lra). ring. }
  split; [unfold weight, Math_pow_int; now rewrite Hm|].
  split; [unfold weight, Math_pow_int; now rewrite Hm|].
  split; [unfold weight; now rewrite Rplus_comm|].
  unfold opacity. lra.
Qed.

Lemma weight_matrix_shape_witness :
  nth (2 * size + 5) weightMatrix 0 = weight 5 2.
Proof.
  assert (Hc : (5 < size)%nat) by (unfold size; lia).
  assert (Hr : (2 < size)%nat) by (unfold size; lia).
  destruct (weight_matrix_shape 5 2 Hc Hr) as (_ & H & _). exact H.
Defined.


(** *** Histograms *)









(** *** The raw grid and its weighting *)

Lemma newGrid_inner (rng : nat -> R) (row n a : nat) (grid : list R)
    (d : nat) :
  fold_left
    (fun '(grid, draws) col =>
       let noise := rng draws * 0.4 in
       (grid ++ [signal col row + noise], S draws))
    (seq a n) (grid, d)
  = (grid ++ map (fun col => signal col row + rng (d + (col - a))%nat * 0.4)
                 (seq a n),
     (d + n)%nat).
Proof.
  revert a grid d. induction n as [|n IH]; intros a grid d.
  - simpl. now rewrite app_nil_r, Nat.add_0_r.
  - cbn [seq fold_left]. rewrite IH, <- app_assoc. cbn [map app].
    rewrite Nat.sub_diag, Nat.add_0_r.
    f_equal; [|lia]. do 2 f_equal.
    apply map_ext_in. intros col Hin. apply in_seq in Hin.
    do 3 f_equal. lia.
Qed.

Lemma newGrid_outer (rng : nat -> R) (m b : nat) (grid : list R) (d : nat) :
  fold_left
    (fun st row =>
       fold_left
         (fun '(grid, draws) col =>
            let noise := rng draws * 0.4 in
            (grid ++ [signal col row + noise], S draws))
         (seq 0 size) st)
    (seq b m) (grid, d)
  = (grid ++ flat_map
               (fun row =>
                  map (fun col =>
                         signal col row
                         + rng (d + (row - b) * size + col)%nat * 0.4)
                      (seq 0 size))
               (seq b m),
     (d + m * size)%nat).
Proof.
  revert b grid d. induction m as [|m IH]; intros b grid d.
  - simpl. now rewrite app_nil_r, Nat.add_0_r.
  - cbn [seq fold_left]. rewrite newGrid_inner, IH, <- app_assoc.
    cbn [flat_map]. rewrite Nat.sub_diag.
    f_equal; [|lia]. f_equal. f_equal.
    + apply map_ext. intros col. do 3 f_equal. lia.
    + rewrite !flat_map_concat_map. f_equal.
      apply map_ext_in. intros row Hin. apply in_seq in Hin.
      apply map_ext. intros col. do 3 f_equal.
      replace (row - b)%nat with (S (row - S b)) by lia.
      unfold size. lia.
Qed.


Lemma newGrid_cells (rng : nat -> R) (draws : nat) :
  newGrid rng draws
  = (flat_map (fun row => map (fun col => cell rng draws col row)
                              (seq 0 size)) (seq 0 size),
     (draws + 49)%nat).
Proof.
  unfold newGrid. rewrite newGrid_outer. cbn [app].
  apply f_equal2; [|reflexivity].
  rewrite !flat_map_concat_map. apply f_equal.
  apply map_ext. intros row. apply map_ext. intros col.
  unfold cell. now rewrite Nat.sub_0_r.
Qed.

Lemma distSq_nat (col row : nat) :
  Math_pow_int (INR col - INR center) 2 + Math_pow_int (INR row - INR center) 2
  = IZR ((Z.of_nat col - 3) ^ 2 + (Z.of_nat row - 3) ^ 2).
Proof.
  unfold Math_pow_int, center, size. simpl Nat.div.
  rewrite plus_IZR. change 2%Z with (Z.of_nat 2).
  rewrite <- !pow_IZR, !minus_IZR, <- !INR_IZR_INZ.
  replace (INR 3) with 3 by (simpl; lra). reflexivity.
Qed.

Lemma signal_unit (col row : nat) : 0 <= signal col row <= 1.
Proof.
  unfold signal.
  set (dist := sqrt _).
  assert (Hd : 0 <= dist) by apply sqrt_pos.
  destruct (Rlt_dec dist 1.5); [|lra].
  split; [apply Rmax_l|]. apply Rmax_lub; lra.
Qed.

Lemma signal_block (col row : nat) :
  (2 <= col <= 4)%nat -> (2 <= row <= 4)%nat -> 0.25 <= signal col row.
Proof.
  intros Hc Hr. unfold signal. rewrite distSq_nat.
  set (n := ((Z.of_nat col - 3) ^ 2 + (Z.of_nat row - 3) ^ 2)%Z).
  assert (Hn : (0 <= n <= 2)%Z) by (unfold n; nia).
  assert (Hs : sqrt (IZR n) < 1.5).
  { replace 1.5 with (sqrt (1.5 * 1.5)) by (apply sqrt_square; lra).
    apply sqrt_lt_1_alt. split; [apply IZR_le; lia|].
    apply Rle_lt_trans with 2; [apply IZR_le; lia|lra]. }
  destruct (Rlt_dec (sqrt (IZR n)) 1.5); [|lra].
  eapply Rle_trans; [|apply Rmax_r]. lra.
Qed.

Lemma signal_outside (col row : nat) :
  ~ ((2 <= col <= 4)%nat /\ (2 <= row <= 4)%nat) -> signal col row = 0.
Proof.
  intros H. unfold signal. rewrite distSq_nat.
  set (n := ((Z.of_nat col - 3) ^ 2 + (Z.of_nat row - 3) ^ 2)%Z).
  assert (Hn : (4 <= n)%Z) by (unfold n; nia).
  assert (Hs : 2 <= sqrt (IZR n)).
  { replace 2 with (sqrt (2 * 2)) at 1 by (apply sqrt_square; lra).
    apply sqrt_le_1_alt. replace (2 * 2) with (IZR 4) by lra.
    apply IZR_le, Hn. }
  destruct (Rlt_dec (sqrt (IZR n)) 1.5); [lra|reflexivity].
Qed.

Lemma signal_center : signal center center = 1.
Proof.
  unfold signal, Math_pow_int. rewrite Rminus_diag.
  replace (0 ^ 2 + 0 ^ 2) with 0 by ring. rewrite sqrt_0.
  destruct (Rlt_dec 0 1.5); [|lra].
  replace (1 - 0 * 0.5) with 1 by ring. apply Rmax_right. lra.
Qed.

Lemma raw_grid_cells_aux (rng : nat -> R) (draws col row : nat) :
  (forall k, 0 <= rng k < 1) -> (col < size)%nat -> (row < size)%nat ->
  List.length (fst (newGrid rng draws)) = 49%nat /\
  0 <= nth (row * size + col) (fst (newGrid rng draws)) 0.
Proof.
  intros Hrng Hc Hr. rewrite newGrid_cells. cbn [fst].
  split; [rewrite length_rows, length_seq; reflexivity|].
  rewrite (nth_rows (fun col row => cell rng draws col row))
    by (rewrite ?length_seq; assumption).
  rewrite seq_nth by assumption. cbn [Nat.add]. unfold cell.
  pose proof (Hrng (draws + row * size + col)%nat) as [R0 R1].
  pose proof (signal_unit col row) as [S0 S1]. lra.
Qed.

(** X22: with draws in [0, 1) one callback builds 49 cells from 49 draws;
    each cell is its signal plus 0.4 times its draw and lies in [0, 1.4), its
    opacity in [0, 1]; the centre signal is 1, a cell of the central 3 by 3
    block is at least 0.25 and any other cell is below 0.4. *)
Theorem raw_grid_cells (rng : nat -> R) (draws col row : nat) :
  (forall k, 0 <= rng k < 1) -> (col < size)%nat -> (row < size)%nat ->
  let grid := fst (newGrid rng draws) in
  let v := nth (row * size + col) grid 0 in
  List.length grid = 49%nat /\
  snd (newGrid rng draws) = (draws + 49)%nat /\
  v = signal col row + rng (draws + row * size + col)%nat * 0.4 /\
  0 <= v < 1.4 /\
  0 <= opacity false v <= 1 /\
  signal center center = 1 /\
  ((2 <= col <= 4)%nat /\ (2 <= row <= 4)%nat -> 0.25 <= v) /\
  (~ ((2 <= col <= 4)%nat /\ (2 <= row <= 4)%nat) -> v < 0.4).
Proof.
  intros Hrng Hc Hr grid v. unfold v, grid.
  rewrite newGrid_cells. cbn [fst snd].
  split; [rewrite length_rows, length_seq; reflexivity|].
  split; [reflexivity|].
  rewrite (nth_rows (fun col row => cell rng draws col row))
    by (rewrite ?length_seq; assumption).
  rewrite seq_nth by assumption. cbn [Nat.add]. unfold cell.
  pose proof (Hrng (draws + row * size + col)%nat) as [R0 R1].
  pose proof (signal_unit col row) as [S0 S1].
  set (n := rng _) in *. set (sg := signal col row) in *.
  split; [reflexivity|].
  split; [split; lra|].
  split.
  { unfold opacity. split; [apply Rmin_glb; lra|apply Rmin_l]. }
  split; [apply signal_center|].
  split.
  - intros [Hcb Hrb]. pose proof (signal_block col row Hcb Hrb). fold sg in H. lra.
  - intros Hout. pose proof (signal_outside col row Hout). fold sg in H. lra.
Qed.

Lemma raw_grid_cells_witness :
  0 <= nth (3 * size + 3) (fst (newGrid (fun _ => 0.5) 0)) 0 < 1.4.
Proof.
  assert (Hr : forall k : nat, 0 <= (fun _ : nat => 0.5) k < 1)
    by (intros k; lra).
  assert (H3 : (3 < size)%nat) by (unfold size; lia).
  destruct (raw_grid_cells (fun _ => 0.5) 0 3 3 Hr H3 H3)
    as (_ & _ & _ & H & _).
  exact H.
Defined.

(** *** Weighting *)

Lemma weightedGrid_nth_error (rawGrid : list R) (i : nat) :
  nth_error (weightedGrid rawGrid) i
  = match nth_error rawGrid i with
    | Some val =>
        Some (match nth_error weightMatrix i with
              | Some w => Some (val * w)
              | None => None
              end)
    | None => None
    end.
Proof.
  unfold weightedGrid. rewrite nth_error_map.
  destruct (nth_error rawGrid i) as [val|] eqn:E.
  - assert (Hi : (i < List.length rawGrid)%nat)
      by (apply nth_error_Some; congruence).
    assert (Ec : nth_error (combine (seq 0 (List.length rawGrid)) rawGrid) i
                 = Some (i, val)).
    { rewrite (nth_error_nth' _ (0%nat, 0)).
      2:{ rewrite length_combine, length_seq. lia. }
      rewrite combine_nth by now rewrite length_seq.
      rewrite seq_nth by exact Hi.
      f_equal. f_equal. now apply nth_error_nth. }
    rewrite Ec. reflexivity.
  - assert (Ec : nth_error (combine (seq 0 (List.length rawGrid)) rawGrid) i
                 = None).
    { apply nth_error_None. rewrite length_combine, length_seq.
      apply nth_error_None in E. lia. }
    rewrite Ec. reflexivity.
Qed.

Lemma weightMatrix_nth_error (col row : nat) :
  (col < size)%nat -> (row < size)%nat ->
  nth_error weightMatrix (row * size + col) = Some (weight col row).
Proof.
  intros Hc Hr.
  destruct (weightMatrix_cells col row Hc Hr) as [Hl Hn].
  rewrite (nth_error_nth' _ 0); [now rewrite Hn|].
  rewrite Hl. unfold size in *. nia.
Qed.


(** X23: the weighted grid of a raw grid built by the callback has 49
    defined cells, each between 0 and the raw cell; the weighted grid of the
    empty initial grid is empty. *)
Theorem weighting_never_amplifies (rng : nat -> R) (draws col row : nat) :
  (forall k, 0 <= rng k < 1) -> (col < size)%nat -> (row < size)%nat ->
  let raw := fst (newGrid rng draws) in
  let i := (row * size + col)%nat in
  nth_error (weightedGrid raw) i = Some (Some (nth i raw 0 * weight col row)) /\
  0 <= nth i raw 0 * weight col row <= nth i raw 0 /\
  List.length (weightedGrid raw) = 49%nat /\
  weightedGrid [] = [].
Proof.
  intros Hrng Hc Hr raw i.
  destruct (raw_grid_cells_aux rng draws col row Hrng Hc Hr) as (Hl & Hv).
  fold raw in Hl, Hv. fold i in Hv.
  assert (Hi : (i < 49)%nat) by (unfold i, size in *; nia).
  split.
  { rewrite weightedGrid_nth_error.
    rewrite (nth_error_nth' raw 0) by (rewrite Hl; exact Hi).
    unfold i. now rewrite weightMatrix_nth_error by assumption. }
  pose proof (weight_unit col row) as [W0 W1].
  split; [split; nra|].
  split; [|reflexivity].
  unfold weightedGrid. now rewrite length_map, length_combine, length_seq, Hl.
Qed.

Lemma weighting_never_amplifies_witness :
  let raw := fst (newGrid (fun _ => 0.5) 0) in
  0 <= nth (3 * size + 3) raw 0 * weight 3 3 <= nth (3 * size + 3) raw 0.
Proof.
  assert (Hr : forall k : nat, 0 <= (fun _ : nat => 0.5) k < 1)
    by (intros k; lra).
  assert (H3 : (3 < size)%nat) by (unfold size; lia).
  destruct (weighting_never_amplifies (fun _ => 0.5) 0 3 3 Hr H3 H3)
    as (_ & H & _).
  exact H.
Defined.

End ImagingExtra.

Module ArrayExtra.

Import ArraySim.
Local Open Scope Q_scope.

Lemma sites_cells (rng : nat -> Q) (draws : nat) :
  sites rng draws
  = (flat_map (fun i => map (fun j => site (rng (draws + i * rows + j)%nat) i j)
                            (seq 0 rows)) (seq 0 cols),
     (draws + 1000)%nat).
Proof.
  unfold sites.
  rewrite (nested_push (fun i j d => site (rng d) i j)). cbn [app].
  apply f_equal2; [|reflexivity].
  rewrite !flat_map_concat_map. apply f_equal.
  apply map_ext. intros i. apply map_ext. intros j.
  now rewrite Nat.sub_0_r.
Qed.

(** X24: the array has 1000 sites, drawn after 1000 random draws; the site
    of column [i] and row [j] is at [(60 + 12 i, 50 + 12 j)], inside the 600
    by 400 view, and it is loaded exactly when its draw exceeds 0.48. *)
Theorem array_sites_in_view (rng : nat -> Q) (draws i j : nat) :
  (i < cols)%nat -> (j < rows)%nat ->
  let data := fst (sites rng draws) in
  let s := nth (i * rows + j) data noSite in
  List.length data = 1000%nat /\
  snd (sites rng draws) = (draws + 1000)%nat /\
  x s == 60 + 12 * inject_Z (Z.of_nat i) /\
  y s == 50 + 12 * inject_Z (Z.of_nat j) /\
  60 <= x s <= 528 /\ 50 <= y s <= 338 /\
  (loaded s = true <-> 0.48 < rng (draws + i * rows + j)%nat).
Proof.
  intros Hi Hj data s. unfold s, data. rewrite sites_cells. cbn [fst snd].
  split; [rewrite length_rows, length_seq; reflexivity|].
  split; [reflexivity|].
  rewrite (nth_rows (fun j i => site (rng (draws + i * rows + j)%nat) i j))
    by (rewrite ?length_seq; assumption).
  rewrite seq_nth by assumption. cbn [Nat.add].
  unfold site; cbn [x y loaded].
  assert (Hx : inject_Z (Z.of_nat i) * spacing + offsetX
               == 60 + 12 * inject_Z (Z.of_nat i)).
  { unfold offsetX, spacing, width, cols. simpl Z.of_nat.
    change (inject_Z 40) with 40. unfold Qdiv. change (/ 2) with (1 # 2). ring. }
  assert (Hy : inject_Z (Z.of_nat j) * spacing + offsetY
               == 50 + 12 * inject_Z (Z.of_nat j)).
  { unfold offsetY, spacing, height, rows. simpl Z.of_nat.
    change (inject_Z 25) with 25. unfold Qdiv. change (/ 2) with (1 # 2). ring. }
  assert (Bi : 0 <= inject_Z (Z.of_nat i) <= 39).
  { change 0 with (inject_Z 0). change 39 with (inject_Z 39).
    rewrite <- !Zle_Qle. unfold cols in Hi. lia. }
  assert (Bj : 0 <= inject_Z (Z.of_nat j) <= 24).
  { change 0 with (inject_Z 0). change 24 with (inject_Z 24).
    rewrite <- !Zle_Qle. unfold rows in Hj. lia. }
  split; [exact Hx|]. split; [exact Hy|].
  rewrite Hx, Hy.
  split; [split; lra|]. split; [split; lra|].
  set (r := rng _).
  destruct (Qle_bool r 0.48) eqn:E; simpl.
  - apply Qle_bool_iff in E. split; [discriminate|lra].
  - split; [intros _|reflexivity].
    apply Qnot_le_lt. intros C. apply Qle_bool_iff in C. congruence.
Qed.

Lemma array_sites_in_view_witness :
  60 <= x (nth (39 * rows + 24) (fst (sites (fun _ => 0.5) 0)) noSite) <= 528.
Proof.
  assert (Hi : (39 < cols)%nat) by (unfold cols; lia).
  assert (Hj : (24 < rows)%nat) by (unfold rows; lia).
  destruct (array_sites_in_view (fun _ => 0.5) 0 39 24 Hi Hj)
    as (_ & _ & _ & _ & H & _).
  exact H.
Defined.

Lemma filter_length_le {A : Type} (p : A -> bool) (l : list A) :
  (List.length (filter p l) <= List.length l)%nat.
Proof.
  induction l as [|a l IH]; simpl; [lia|]. destruct (p a); simpl; lia.
Qed.

Lemma filter_all {A : Type} (p : A -> bool) (l : list A) :
  Forall (fun a => p a = true) l -> filter p l = l.
Proof.
  induction 1 as [|a l Ha _ IH]; simpl; [reflexivity|]. now rewrite Ha, IH.
Qed.

Lemma filter_none {A : Type} (p : A -> bool) (l : list A) :
  Forall (fun a => p a = false) l -> filter p l = [].
Proof.
  induction 1 as [|a l Ha _ IH]; simpl; [reflexivity|]. now rewrite Ha, IH.
Qed.

Lemma sites_loaded_forall (rng : nat -> Q) (draws : nat) (b : bool) :
  (forall k, negb (Qle_bool (rng k) 0.48) = b) ->
  Forall (fun s => loaded s = b) (fst (sites rng draws)).
Proof.
  intros H. rewrite sites_cells. cbn [fst].
  apply Forall_flat_map, Forall_forall. intros i _.
  apply Forall_map, Forall_forall. intros j _.
  unfold site; cbn [loaded]. apply H.
Qed.

(** X25: at most 1000 atoms are loaded, so the figure shown is at most
    6000; it is 0 when no draw exceeds 0.48 and 6000 when every draw does;
    the fade-in delay of every atom is below 500 ms. *)
Theorem array_count_bounds (rng : nat -> Q) (draws : nat) :
  let data := fst (sites rng draws) in
  (activeCount data <= 1000)%nat /\
  (shownQubits data <= 1000 * 6)%nat /\
  ((forall k, rng k <= 0.48) ->
   atoms data = [] /\ shownQubits data = 0%nat) /\
  ((forall k, 0.48 < rng k) ->
   atoms data = data /\ shownQubits data = (1000 * 6)%nat) /\
  (forall n, (n < activeCount data)%nat -> delay n < 500).
Proof.
  intros data.
  assert (Hl : List.length data = 1000%nat).
  { unfold data. rewrite sites_cells. cbn [fst].
    rewrite length_rows, length_seq. reflexivity. }
  assert (Ha : (activeCount data <= 1000)%nat).
  { unfold activeCount, atoms. rewrite <- Hl. apply filter_length_le. }
  split; [exact Ha|].
  split; [unfold shownQubits; lia|].
  split; [|split].
  - intros Hr.
    assert (E : atoms data = []).
    { apply filter_none, sites_loaded_forall. intros k.
      specialize (Hr k). apply Qle_bool_iff in Hr. now rewrite Hr. }
    split; [exact E|]. unfold shownQubits, activeCount. now rewrite E.
  - intros Hr.
    assert (E : atoms data = data).
    { apply filter_all, sites_loaded_forall. intros k.
      specialize (Hr k). destruct (Qle_bool (rng k) 0.48) eqn:C; [|reflexivity].
      apply Qle_bool_iff in C. lra. }
    split; [exact E|]. unfold shownQubits, activeCount. now rewrite E, Hl.
  - intros n Hn. unfold delay.
    assert (B : inject_Z (Z.of_nat n) <= 999).
    { change 999 with (inject_Z 999). rewrite <- Zle_Qle. lia. }
    lra.
Qed.

End ArrayExtra.

Module ChatExtra.

Import Chat.
Local Open Scope string_scope.
Local Open Scope list_scope.



Lemma lastMessage_snoc (h : list ChatMessage) (m : ChatMessage) :
  lastMessage (h ++ [m]) = Some m.
Proof.
  destruct h as [|a h]; [reflexivity|].
  simpl. f_equal. apply last_app_singleton.
Qed.

Lemma deliver_no_failure (items : list StreamItem) :
  forallb isChunk items = true -> deliver items = chunkTexts items.
Proof.
  induction items as [|[t|] items IH]; simpl; intros H.
  - reflexivity.
  - destruct t as [[|c s]|]; simpl; now rewrite IH.
  - discriminate.
Qed.

Lemma deliver_failure (pre post : list StreamItem) :
  forallb isChunk pre = true ->
  deliver (pre ++ Throw :: post) = chunkTexts pre ++ [connectionError].
Proof.
  induction pre as [|[t|] pre IH]; simpl; intros H.
  - reflexivity.
  - destruct t as [[|c s]|]; simpl; now rewrite IH.
  - discriminate.
Qed.

Lemma deliver_nonempty (items : list StreamItem) :
  Forall (fun s => s <> "") (deliver items).
Proof.
  induction items as [|[t|] items IH]; simpl.
  - constructor.
  - destruct t as [[|c s]|]; simpl; auto. constructor; [discriminate|exact IH].
  - constructor; [discriminate|constructor].
Qed.

(** X27: with an API key, the chunks delivered depend on the text of the
    last message of the history only, not on the earlier messages nor on its
    role; an empty history yields the connection error; no delivered chunk is
    empty. *)
Theorem only_last_message_is_sent (key : string)
    (sendMessageStream : string -> list StreamItem)
    (h1 h2 : list ChatMessage) (m : ChatMessage) (r : Role) (t : nat) :
  key <> "" ->
  streamGeminiResponse (Some key) sendMessageStream (h1 ++ [m])
    = deliver (sendMessageStream (text m)) /\
  streamGeminiResponse (Some key) sendMessageStream (h1 ++ [m])
    = streamGeminiResponse (Some key) sendMessageStream
        (h2 ++ [mkChatMessage r (text m) t]) /\
  streamGeminiResponse (Some key) sendMessageStream [] = [connectionError] /\
  Forall (fun s => s <> "")
    (streamGeminiResponse (Some key) sendMessageStream (h1 ++ [m])).
Proof.
  intros Hk. destruct key as [|c k]; [congruence|].
  unfold streamGeminiResponse. cbn [truthy negb].
  rewrite !lastMessage_snoc. cbn [text].
  repeat split. apply deliver_nonempty.
Qed.

Lemma only_last_message_is_sent_witness :
  streamGeminiResponse (Some "k") (fun q => [Chunk (Some q)])
    ([mkChatMessage model "Hello" 0] ++ [mkChatMessage user "T2?" 1])
  = deliver ((fun q => [Chunk (Some q)]) "T2?").
Proof.
  assert (Hk : "k" <> "") by discriminate.
  destruct (only_last_message_is_sent "k" (fun q => [Chunk (Some q)])
              [mkChatMessage model "Hello" 0] [] (mkChatMessage user "T2?" 1)
              user 0 Hk) as [H _].
  exact H.
Defined.

(** X28: a stream of chunks delivers its non-empty texts in order; when it
    fails, the texts before the failure are delivered, then the connection
    error, and nothing after it. *)
Theorem stream_failure_is_reported (pre post : list StreamItem) :
  forallb isChunk pre = true ->
  deliver pre = chunkTexts pre /\
  deliver (pre ++ Throw :: post) = chunkTexts pre ++ [connectionError] /\
  Forall (fun s => s <> "") (chunkTexts pre).
Proof.
  intros H. split; [now apply deliver_no_failure|].
  split; [now apply deliver_failure|].
  rewrite <- deliver_no_failure by exact H. apply deliver_nonempty.
Qed.

Lemma stream_failure_is_reported_witness :
  deliver ([Chunk (Some "a"); Chunk None; Chunk (Some "")]
           ++ Throw :: [Chunk (Some "late")])
  = ["a"] ++ [connectionError].
Proof.
  apply (stream_failure_is_reported
           [Chunk (Some "a"); Chunk None; Chunk (Some "")]
           [Chunk (Some "late")]).
  reflexivity.
Defined.

(** *** [handleSend] *)



Lemma setLastText_snoc (msgs : list ChatMessage) (m : ChatMessage)
    (full : string) :
  setLastText (msgs ++ [m]) full
  = msgs ++ [ {| role := role m; text := full; timestamp := timestamp m |} ].
Proof.
  induction msgs as [|a msgs IH]; [reflexivity|].
  cbn [app setLastText]. rewrite IH.
  destruct (msgs ++ [m]) eqn:E; [destruct msgs; discriminate|reflexivity].
Qed.

Lemma append_empty_r (s : string) : (s ++ "")%string = s.
Proof. induction s as [|c s IH]; simpl; [reflexivity|now rewrite IH]. Qed.

Lemma append_assoc_str (a b c : string) :
  ((a ++ b) ++ c)%string = (a ++ (b ++ c))%string.
Proof. induction a as [|x a IH]; simpl; [reflexivity|now rewrite IH]. Qed.

Lemma concat_empty_cons (c : string) (chunks : list string) :
  String.concat "" (c :: chunks) = (c ++ String.concat "" chunks)%string.
Proof.
  destruct chunks as [|d chunks]; simpl; [now rewrite append_empty_r|reflexivity].
Qed.

Lemma accumulate_chunks (chunks : list string) (msgs : list ChatMessage)
    (r : Role) (t : nat) (full : string) :
  fold_left
    (fun '(shown, fullResponse) chunk =>
       let fullResponse := (fullResponse ++ chunk)%string in
       (setLastText shown fullResponse, fullResponse))
    chunks (msgs ++ [mkChatMessage r full t], full)
  = (msgs ++ [mkChatMessage r (full ++ String.concat "" chunks)%string t],
     (full ++ String.concat "" chunks)%string).
Proof.
  revert full. induction chunks as [|c chunks IH]; intros full.
  - simpl. now rewrite append_empty_r.
  - cbn [fold_left]. rewrite setLastText_snoc. cbn [role timestamp].
    rewrite IH, concat_empty_cons, append_assoc_str. reflexivity.
Qed.

(** X30: otherwise [handleSend] appends exactly two messages, the input as
    typed and the answer, which is the concatenation of the delivered chunks
    (the missing-key error when there is no key); it clears the input and
    ends with the loading flag off. *)
Theorem send_appends_question_and_answer (trim : string -> string)
    (tUser tModel : nat) (apiKey : option string)
    (sendMessageStream : string -> list StreamItem) (st : ChatState) :
  trim (input st) <> "" -> isLoading st = false ->
  let st' := handleSend trim tUser tModel apiKey sendMessageStream st in
  let answer :=
    if truthy apiKey
    then String.concat "" (deliver (sendMessageStream (input st)))
    else missingKey in
  messages st'
    = messages st ++ [mkChatMessage user (input st) tUser;
                      mkChatMessage model answer tModel] /\
  input st' = "" /\ isLoading st' = false.
Proof.
  intros Ht Hl st' answer. unfold st', handleSend.
  destruct (trim (input st)) as [|c s] eqn:E; [congruence|].
  rewrite Hl. cbn [isEmpty orb].
  set (userMsg := {| role := user; text := input st; timestamp := tUser |}).
  pose proof (accumulate_chunks
                (streamGeminiResponse apiKey sendMessageStream
                   (messages st ++ [userMsg]))
                (messages st ++ [userMsg]) model tModel "") as Hacc.
  cbn [append] in Hacc.
  destruct (fold_left _ _ _) as [shown full] eqn:F.
  injection Hacc as Hs _. cbn [messages input isLoading].
  split; [|split; reflexivity].
  rewrite Hs, <- app_assoc. cbn [app]. do 3 f_equal.
  unfold answer, streamGeminiResponse.
  destruct (truthy apiKey); cbn [negb].
  - now rewrite lastMessage_snoc.
  - reflexivity.
Qed.

Lemma send_appends_question_and_answer_witness :
  messages (handleSend (fun s => s) 1 2 (Some "k")
              (fun q => [Chunk (Some "12.6"); Chunk (Some " s")])
              (mkChatState [] "T2?" false))
  = [] ++ [mkChatMessage user "T2?" 1; mkChatMessage model "12.6 s" 2].
Proof.
  assert (Ht : (fun s : string => s) "T2?" <> "") by discriminate.
  destruct (send_appends_question_and_answer (fun s => s) 1 2 (Some "k")
              (fun q => [Chunk (Some "12.6"); Chunk (Some " s")])
              (mkChatState [] "T2?" false) Ht eq_refl) as [H _].
  exact H.
Defined.

End ChatExtra.
